(** * Dashboard: the ingestion-and-aggregation pipeline of [app.py]

    A shallow embedding of [read_csv_any], [load_data], [preprocess_fire],
    [preprocess_weather], [make_daily_merge], the two merges of [main] and
    the tables of [page_overview], together with the pandas and codec
    operations they call, and the properties of the pipeline stated
    against that embedding.

    Conventions.
    - A DataFrame is the list of its rows, in row order; a column is the
      projection of a field.  A missing cell (NaN, NaT) is [None].
    - A Python exception is a value of [Exn]; a call that may raise returns
      a [result].
    - The measurements (temperature, humidity, precipitation) carry exact
      rationals: the rounding of float64 is not modelled, and no property
      below rests on an arithmetic law of these values.
    - The date column and the count columns have the dtype pandas gives
      them: int64, float64 once a cell is missing, object with a text.
    - pandas behaviour is that of the 2.x series with default arguments
      ([groupby]: [sort=True], [dropna=True]; [sort_values]:
      [kind="quicksort"]; datetime64[ns]). *)

From Stdlib Require Import List Bool Arith ZArith NArith Lia String Ascii.
From Stdlib.Strings Require Import Byte.
From Stdlib Require Import QArith Qreduction Permutation Sorted DecimalString.
From Stdlib Require DecimalZ.
Import ListNotations.

Set Implicit Arguments.
Local Open Scope Z_scope.

(* ================================================================== *)
(** ** Exceptions and fallible results *)

Inductive Exn : Type :=
| OSError                (* Path(path).read_bytes() cannot open or read *)
| LookupError            (* unknown encoding name *)
| UnicodeDecodeError     (* bytes.decode with errors="strict" *)
| EmptyDataError         (* pandas.errors.EmptyDataError *)
| ParserError            (* pandas.errors.ParserError *)
| ValueError             (* time data does not match format, ... *)
| OutOfBoundsDatetime.   (* outside the datetime64[ns] range; a ValueError *)

Inductive result (A : Type) : Type :=
| Ok (a : A)
| Raise (e : Exn).
Arguments Ok {A} a.
Arguments Raise {A} e.

Definition bind {A B} (m : result A) (k : A -> result B) : result B :=
  match m with
  | Ok a => k a
  | Raise e => Raise e
  end.

Notation "x <- m ;; k" := (bind m (fun x => k))
  (at level 61, m at next level, right associativity).

(** [mapM f l]: apply [f] to every element, left to right; the first
    exception aborts the whole traversal. *)
Fixpoint mapM {A B} (f : A -> result B) (l : list A) : result (list B) :=
  match l with
  | [] => Ok []
  | a :: l' => b <- f a ;; bs <- mapM f l' ;; Ok (b :: bs)
  end.

Definition is_ok {A} (m : result A) : bool :=
  match m with Ok _ => true | Raise _ => false end.

(* ================================================================== *)
(** ** Ordered keys

    [groupby] sorts its group keys and [merge] compares them; both only
    need a three-way comparison on the key type. *)

Class Ord (K : Type) := cmp : K -> K -> comparison.

Class OrdLaws (K : Type) {O : Ord K} : Prop := {
  cmp_eq : forall x y : K, cmp x y = Eq <-> x = y;
  cmp_antisym : forall x y : K, cmp y x = CompOpp (cmp x y);
  cmp_trans : forall x y z : K, cmp x y = Lt -> cmp y z = Lt -> cmp x z = Lt
}.
Arguments OrdLaws K {O}.

Definition eqb_key {K} `{Ord K} (x y : K) : bool :=
  match cmp x y with Eq => true | _ => false end.

#[export] Instance Ord_Z : Ord Z := Z.compare.

(** Python compares [str] by code point; on the UTF-8 bytes held by a
    Rocq [string] that is the bytewise order of [String.compare]. *)
#[export] Instance Ord_string : Ord string := String.compare.

(** Tuples of keys (a MultiIndex) are ordered lexicographically. *)
#[export] Instance Ord_prod {A B} `{Ord A} `{Ord B} : Ord (A * B) :=
  fun p q =>
    match cmp (fst p) (fst q) with
    | Eq => cmp (snd p) (snd q)
    | c => c
    end.

(** An order carried along an injection. *)
Definition Ord_via {A B} `{Ord B} (f : A -> B) : Ord A :=
  fun x y => cmp (f x) (f y).

(* ================================================================== *)
(** ** pandas: [groupby], [size], [agg]

    [df.groupby(key)] with the defaults [sort=True], [dropna=True]: rows
    whose key is missing belong to no group; the groups come out in
    ascending key order; inside a group the rows keep their order. *)

Section GroupBy.
Context {K : Type} {O : Ord K} {R : Type}.

(** Add row [r] to the group of key [k], creating the group at its
    sorted position when the key is new. *)
Fixpoint group_insert (k : K) (r : R) (gs : list (K * list R))
  : list (K * list R) :=
  match gs with
  | [] => [(k, [r])]
  | (k', rs) :: gs' =>
      match cmp k k' with
      | Lt => (k, [r]) :: gs
      | Eq => (k', rs ++ [r]) :: gs'
      | Gt => (k', rs) :: group_insert k r gs'
      end
  end.

Definition group_step (key : R -> option K) (gs : list (K * list R)) (r : R) :=
  match key r with
  | Some k => group_insert k r gs
  | None => gs                      (* dropna=True *)
  end.

Definition groupby (key : R -> option K) (rows : list R) : list (K * list R) :=
  fold_left (group_step key) rows [].

(** [.size()]: the number of rows of each group. *)
Definition size (gs : list (K * list R)) : list (K * Z) :=
  map (fun g => (fst g, Z.of_nat (List.length (snd g)))) gs.

(** [.agg(f)]: one reduced value per group. *)
Definition agg {V} (f : list R -> V) (gs : list (K * list R)) : list (K * V) :=
  map (fun g => (fst g, f (snd g))) gs.

(** The rows of [rows] whose key is [k], in row order. *)
Definition has_key (key : R -> option K) (k : K) (r : R) : bool :=
  match key r with
  | Some k' => eqb_key k k'
  | None => false
  end.

Definition rows_with (key : R -> option K) (k : K) (rows : list R) : list R :=
  filter (has_key key k) rows.

Definition keyed (key : R -> option K) (r : R) : bool :=
  match key r with Some _ => true | None => false end.

Fixpoint lookup {V} (k : K) (t : list (K * V)) : option V :=
  match t with
  | [] => None
  | (k', v) :: t' => if eqb_key k k' then Some v else lookup k t'
  end.

Definition key_lt {V} (a b : K * V) : Prop := cmp (fst a) (fst b) = Lt.

Definition key_sorted {V} (t : list (K * V)) : Prop :=
  StronglySorted key_lt t.

Definition extend (o : option (list R)) (l : list R) : option (list R) :=
  match o, l with
  | None, [] => None
  | None, _ => Some l
  | Some rs, _ => Some (rs ++ l)
  end.
End GroupBy.

(* ================================================================== *)
(** ** pandas: [merge], [sort_values] *)

Section Merge.
Context {K : Type} {O : Ord K} {A B : Type}.

(** [pd.merge(left, right, how="inner")] on one key (a column, or a
    tuple of columns): every pair of a left row and a right row with
    equal keys, in the order of the left rows.  A merged row is kept as
    the pair of the two rows it was built from, so it carries the key
    and every other column of both sides. *)
Definition merge_inner (left : list (K * A)) (right : list (K * B))
  : list ((K * A) * (K * B)) :=
  flat_map
    (fun l => map (fun r => (l, r))
                  (filter (fun r => eqb_key (fst l) (fst r)) right))
    left.

Definition merged_key (m : (K * A) * (K * B)) : K := fst (fst m).
End Merge.

(** [rows.take(idx)]: the rows at the given positions, in that order. *)
Definition take {A} (rows : list A) (idx : list nat) : list A :=
  flat_map (fun i => match nth_error rows i with
                     | Some r => [r]
                     | None => []
                     end) idx.

Section SortValues.
(** numpy's [a.argsort(kind="quicksort")] on an int64 array: positions
    that put the values in ascending order.  numpy promises no more of
    [quicksort] (it is not a stable sort), so the procedure is a
    parameter of the model. *)
Variable argsort : list Z -> list nat.

(** [pandas.core.sorting.nargsort(items, ascending=False)] on values
    without NaN: reverse values and positions, sort ascending, read the
    positions off and reverse again. *)
Definition nargsort_desc (items : list Z) : list nat :=
  let non_nans := rev items in
  let non_nan_idx := rev (seq 0 (List.length items)) in
  rev (take non_nan_idx (argsort non_nans)).

(** [df.sort_values(by, ascending=False)] on an integer column. *)
Definition sort_values_desc {A} (by_ : A -> Z) (rows : list A) : list A :=
  take rows (nargsort_desc (map by_ rows)).
End SortValues.

(** What numpy documents of [argsort] at one input: the result lists every
    position once and the values read in that order do not decrease. *)
Fixpoint nondecreasing (l : list Z) : bool :=
  match l with
  | x :: (y :: _) as l' => (x <=? y) && nondecreasing l'
  | _ => true
  end.

Definition argsort_ok (argsort : list Z -> list nat) (items : list Z) : bool :=
  let out := argsort items in
  (List.length out =? List.length items)%nat
  && forallb (fun i => existsb (Nat.eqb i) out) (seq 0 (List.length items))
  && nondecreasing (take items out).

(** A stable argsort (insertion sort on the pairs of value and position),
    the behaviour of numpy's scalar quicksort on arrays of at most 16
    elements. *)
Fixpoint insert_before (p : Z * nat) (l : list (Z * nat)) : list (Z * nat) :=
  match l with
  | [] => [p]
  | q :: l' => if fst p <=? fst q then p :: l else q :: insert_before p l'
  end.

Definition stable_argsort (items : list Z) : list nat :=
  map snd (fold_right insert_before []
             (combine items (seq 0 (List.length items)))).

(* ================================================================== *)
(** ** Calendar dates and timestamps *)

(** [datetime.date]. *)
Record Date : Type := { d_year : Z; d_month : Z; d_day : Z }.

(** [pd.Timestamp] (datetime64[ns]): a date and the nanoseconds elapsed
    since its midnight. *)
Record Timestamp : Type := { ts_date : Date; ts_nanos : Z }.

Definition midnight (d : Date) : Timestamp := {| ts_date := d; ts_nanos := 0 |}.

Definition date_tuple (d : Date) : Z * (Z * Z) := (d_year d, (d_month d, d_day d)).
Definition ts_tuple (t : Timestamp) : (Z * (Z * Z)) * Z :=
  (date_tuple (ts_date t), ts_nanos t).

#[export] Instance Ord_Date : Ord Date := Ord_via date_tuple.
#[export] Instance Ord_Timestamp : Ord Timestamp := Ord_via ts_tuple.

Definition is_leap (y : Z) : bool :=
  ((y mod 4 =? 0) && negb (y mod 100 =? 0)) || (y mod 400 =? 0).

Definition days_in_month (y m : Z) : Z :=
  match m with
  | 1 | 3 | 5 | 7 | 8 | 10 | 12 => 31
  | 4 | 6 | 9 | 11 => 30
  | 2 => if is_leap y then 29 else 28
  | _ => 0
  end.

(** A date of the (proleptic Gregorian) calendar. *)
Definition valid_date (d : Date) : bool :=
  (1 <=? d_month d) && (d_month d <=? 12)
  && (1 <=? d_day d) && (d_day d <=? days_in_month (d_year d) (d_month d)).

(** The midnights a datetime64[ns] can hold: [Timestamp.min] is
    1677-09-21 00:12:43.1, [Timestamp.max] is 2262-04-11 23:47:16.8. *)
Definition first_day : Date := {| d_year := 1677; d_month := 9; d_day := 22 |}.
Definition last_day : Date := {| d_year := 2262; d_month := 4; d_day := 11 |}.

Definition in_bounds (d : Date) : bool :=
  match cmp first_day d, cmp d last_day with
  | Gt, _ | _, Gt => false
  | _, _ => true
  end.

(* ================================================================== *)
(** ** Cells and [astype(str)] *)

(** A cell as the table holds it: missing, an integer or a text. *)
Inductive Cell : Type :=
| CNaN
| CInt (z : Z)
| CStr (s : string).

(** The dtype of a column.  pandas types the column, not the cell: a text
    beside anything makes the column [object]; integers beside an empty
    cell are stored as float64, as is a column of empty cells only;
    integers alone are int64. *)
Inductive dtype : Type := int64 | float64 | object.

Definition is_text (c : Cell) : bool :=
  match c with CStr _ => true | _ => false end.

Definition is_missing (c : Cell) : bool :=
  match c with CNaN => true | _ => false end.

Definition column_dtype (col : list Cell) : dtype :=
  if existsb is_text col then object
  else if existsb is_missing col then float64
  else match col with [] => object | _ => int64 end.

(** Python's [str] of an [int]: its decimal digits, with a sign when
    negative. *)
Definition str_of_Z (z : Z) : string := NilZero.string_of_int (Z.to_int z).

(** Python's [str] of the float64 of integer value [z]: the digits of [z]
    followed by [.0].  (From 10^16 on Python writes a float with an
    exponent instead; the integers of the tables are below.) *)
Definition float_str (z : Z) : string := str_of_Z z ++ ".0".

(** [astype(str)] on a cell of an int64 or object column: Python's [str]
    of the value; a missing cell becomes the text [nan]. *)
Definition astype_str (c : Cell) : string :=
  match c with
  | CNaN => "nan"
  | CInt z => str_of_Z z
  | CStr s => s
  end.

(** [series.astype(str)] on a cell of a column of dtype [t]: in a float64
    column an integer is a float, written with [.0]. *)
Definition astype_str_as (t : dtype) (c : Cell) : string :=
  match t, c with
  | float64, CInt z => float_str z
  | _, _ => astype_str c
  end.

(** [series == value] on a text column: a missing cell equals nothing. *)
Definition cell_is (value : string) (c : option string) : bool :=
  match c with
  | Some s => String.eqb s value
  | None => false
  end.

(* ================================================================== *)
(** ** [pd.to_datetime(series, format="%Y%m%d")]

    Per element ([pandas._libs.tslibs.strptime.array_strptime]):
    the empty text and the texts of [nat_strings] give NaT; [now] and
    [today] give the current time; any other text must match the regular
    expression of the format from its start to its end,
    [(?P<Y>\d\d\d\d)(?P<m>1[0-2]|0[1-9]|[1-9])(?P<d>3[01]|[12]\d|0[1-9]|[1-9]| [1-9])],
    name a day that exists, and fall in the datetime64[ns] range; else the
    call raises.  [\d] is read as an ASCII digit. *)

Definition nat_strings : list string :=
  ["NaT"; "nat"; "NAT"; "nan"; "NaN"; "NAN"]%string.

Definition is_digit (c : ascii) : bool :=
  let n := N_of_ascii c in (48 <=? n)%N && (n <=? 57)%N.

Definition digit (c : ascii) : Z := Z.of_N (N_of_ascii c) - 48.

Definition in_range (lo hi : ascii) (c : ascii) : bool :=
  (N_of_ascii lo <=? N_of_ascii c)%N && (N_of_ascii c <=? N_of_ascii hi)%N.

(** [(?P<Y>\d\d\d\d)] *)
Definition match_Y (s : list ascii) : option (Z * list ascii) :=
  match s with
  | a :: b :: c :: d :: rest =>
      if is_digit a && is_digit b && is_digit c && is_digit d
      then Some (1000 * digit a + 100 * digit b + 10 * digit c + digit d, rest)
      else None
  | _ => None
  end.

(** One alternative of two characters, the first in [l1..h1], the second in
    [l2..h2]; and one of a single character. *)
Definition alt2 (l1 h1 l2 h2 : ascii) (s : list ascii) : list (Z * list ascii) :=
  match s with
  | a :: b :: rest =>
      if in_range l1 h1 a && in_range l2 h2 b
      then [(10 * digit a + digit b, rest)] else []
  | _ => []
  end.

Definition alt1 (l h : ascii) (s : list ascii) : list (Z * list ascii) :=
  match s with
  | a :: rest => if in_range l h a then [(digit a, rest)] else []
  | _ => []
  end.

(** [ [1-9]]: a space, then one digit. *)
Definition alt_space (s : list ascii) : list (Z * list ascii) :=
  match s with
  | a :: b :: rest =>
      if Ascii.eqb a " " && in_range "1" "9" b then [(digit b, rest)] else []
  | _ => []
  end.

(** [(?P<m>1[0-2]|0[1-9]|[1-9])]: the alternatives that match, in the order
    the regular expression tries them. *)
Definition match_m (s : list ascii) : list (Z * list ascii) :=
  alt2 "1" "1" "0" "2" s ++ alt2 "0" "0" "1" "9" s ++ alt1 "1" "9" s.

(** [(?P<d>3[01]|[12]\d|0[1-9]|[1-9]| [1-9])] *)
Definition match_d (s : list ascii) : list (Z * list ascii) :=
  alt2 "3" "3" "0" "1" s ++ alt2 "1" "2" "0" "9" s ++ alt2 "0" "0" "1" "9" s
  ++ alt1 "1" "9" s ++ alt_space s.

(** The month and day groups: the first way to match both, by backtracking
    over the alternatives of the month. *)
Definition match_md (s : list ascii) : option ((Z * Z) * list ascii) :=
  hd_error
    (flat_map (fun ms =>
                 match match_d (snd ms) with
                 | [] => []
                 | ds :: _ => [((fst ms, fst ds), snd ds)]
                 end)
              (match_m s)).

(** [format_regex.match(val)]: the date matched at the start of the text
    and the text left over. *)
Definition regex_match (s : list ascii) : option (Date * list ascii) :=
  match match_Y s with
  | None => None
  | Some (y, s1) =>
      match match_md s1 with
      | None => None
      | Some (md, rest) =>
          Some ({| d_year := y; d_month := fst md; d_day := snd md |}, rest)
      end
  end.

Definition strptime_Ymd (s : string) : result Timestamp :=
  match regex_match (list_ascii_of_string s) with
  | None => Raise ValueError              (* does not match format *)
  | Some (d, rest) =>
      match rest with
      | _ :: _ => Raise ValueError        (* unconverted data remains *)
      | [] =>
          if negb (valid_date d) then Raise ValueError  (* day out of range *)
          else if negb (in_bounds d) then Raise OutOfBoundsDatetime
          else Ok (midnight d)
      end
  end.

Section ToDatetime.
(** The clock read by [now] and [today]. *)
Variable now : Timestamp.

Definition to_datetime_Ymd_1 (s : string) : result (option Timestamp) :=
  if String.eqb s "" || existsb (String.eqb s) nat_strings then Ok None
  else if String.eqb s "now" || String.eqb s "today" then Ok (Some now)
  else t <- strptime_Ymd s ;; Ok (Some t).

(** The whole column: the first bad element aborts the call (the default
    [errors="raise"]). *)
Definition to_datetime_Ymd (col : list string) : result (list (option Timestamp)) :=
  mapM to_datetime_Ymd_1 col.
End ToDatetime.

(* ================================================================== *)
(** ** Reductions of a float column: [mean] and [sum]

    Both skip missing values.  The mean of a group without a value is
    missing; its sum is 0 ([min_count=0]).  Values are kept in lowest
    terms. *)

Definition dropna (xs : list (option Q)) : list Q :=
  flat_map (fun x => match x with Some q => [q] | None => [] end) xs.

Definition total (xs : list Q) : Q := fold_left Qplus xs (0%Q).

Definition mean (xs : list (option Q)) : option Q :=
  match dropna xs with
  | [] => None
  | v => Some (Qred (total v / inject_Z (Z.of_nat (List.length v))))
  end.

Definition sum (xs : list (option Q)) : option Q :=
  Some (Qred (total (dropna xs))).

(* ================================================================== *)
(** ** The incident table *)

Module Fire.
(** A row of the incident file, with the columns the pipeline reads. *)
Record Raw : Type := {
  GRNDS_CTPV_NM : option string;        (* region *)
  GRNDS_SGG_NM : option string;         (* sub-region *)
  OCRN_YR : option Z;
  OCRN_MM : option Z;
  OCRN_YMD : Cell;
  IGTN_DMNT_LCLSF_NM : option string;   (* cause category *)
  DTH_CNT : option Z;
  INJPSN_CNT : option Z;
  PRPT_DAM_AMT : option Z
}.

(** A row of [seoul]: the raw columns and the three derived ones. *)
Record Row : Type := {
  raw : Raw;
  연도 : option Z;
  월 : option Z;
  발생일 : option Timestamp
}.

Definition 연도_월 (r : Row) : option (Z * Z) :=
  match 연도 r, 월 r with
  | Some y, Some m => Some (y, m)
  | _, _ => None
  end.
End Fire.

Definition 서울특별시 : string := "서울특별시".
Definition 서울 : string := "서울".

Section PreprocessFire.
Variable now : Timestamp.
Variable argsort : list Z -> list nat.

(** [fire[fire["GRNDS_CTPV_NM"] == "서울특별시"]] *)
Definition filter_region (fire : list Fire.Raw) : list Fire.Raw :=
  filter (fun r => cell_is 서울특별시 (Fire.GRNDS_CTPV_NM r)) fire.

Definition derive_fire (r : Fire.Raw) (t : option Timestamp) : Fire.Row :=
  {| Fire.raw := r;
     Fire.연도 := Fire.OCRN_YR r;
     Fire.월 := Fire.OCRN_MM r;
     Fire.발생일 := t |}.

(** [groupby(key).size().reset_index(name=...)] *)
Definition count_by {K} `{Ord K} (key : Fire.Row -> option K)
           (seoul : list Fire.Row) : list (K * Z) :=
  size (groupby key seoul).

(** [... .sort_values("건수", ascending=False)] *)
Definition ranking (key : Fire.Row -> option string) (seoul : list Fire.Row)
  : list (string * Z) :=
  sort_values_desc argsort snd (count_by key seoul).

Definition preprocess_fire (fire : list Fire.Raw)
  : result (list Fire.Row * list ((Z * Z) * Z)
            * list (string * Z) * list (string * Z)) :=
  let seoul0 := filter_region fire in
  (* seoul["OCRN_YMD"] keeps the dtype the column has in fire *)
  let t := column_dtype (map Fire.OCRN_YMD fire) in
  days <- to_datetime_Ymd now
            (map (fun r => astype_str_as t (Fire.OCRN_YMD r)) seoul0) ;;
  let seoul := map (fun p => derive_fire (fst p) (snd p)) (combine seoul0 days) in
  let monthly := count_by Fire.연도_월 seoul in
  let cause := ranking (fun r => Fire.IGTN_DMNT_LCLSF_NM (Fire.raw r)) seoul in
  let region := ranking (fun r => Fire.GRNDS_SGG_NM (Fire.raw r)) seoul in
  Ok (seoul, monthly, cause, region).
End PreprocessFire.

(* ================================================================== *)
(** ** The weather table *)

Module Weather.
Record Raw : Type := {
  지점명 : option string;               (* station *)
  일시 : Cell;                          (* timestamp text *)
  기온 : option Q;                      (* 기온(°C) *)
  습도 : option Q;                      (* 습도(%) *)
  강수량 : option Q                     (* 강수량(mm) *)
}.

(** A row of [w]: [일시] parsed, and the three derived columns. *)
Record Row : Type := {
  raw : Raw;
  일시_parsed : option Timestamp;
  연도 : option Z;
  월 : option Z;
  날짜 : option Date
}.

Definition 연도_월 (r : Row) : option (Z * Z) :=
  match 연도 r, 월 r with
  | Some y, Some m => Some (y, m)
  | _, _ => None
  end.

(** The three reduced columns of a weather summary. *)
Record Summary : Type := {
  mean_기온 : option Q;
  mean_습도 : option Q;
  sum_강수량 : option Q
}.
End Weather.

(** [.agg({"기온(°C)": "mean", "습도(%)": "mean", "강수량(mm)": "sum"})] on one
    group. *)
Definition weather_agg (rows : list Weather.Row) : Weather.Summary :=
  {| Weather.mean_기온 := mean (map (fun r => Weather.기온 (Weather.raw r)) rows);
     Weather.mean_습도 := mean (map (fun r => Weather.습도 (Weather.raw r)) rows);
     Weather.sum_강수량 := sum (map (fun r => Weather.강수량 (Weather.raw r)) rows) |}.

Section PreprocessWeather.
(** [pd.to_datetime(series)] without a format: pandas guesses the format
    of the column from its first value, so the parser works on the whole
    column.  It is a parameter of the model. *)
Variable to_datetime : list Cell -> result (list (option Timestamp)).

Definition filter_station (weather : list Weather.Raw) : list Weather.Raw :=
  filter (fun r => cell_is 서울 (Weather.지점명 r)) weather.

Definition derive_weather (r : Weather.Raw) (t : option Timestamp) : Weather.Row :=
  {| Weather.raw := r;
     Weather.일시_parsed := t;
     Weather.연도 := option_map (fun t => d_year (ts_date t)) t;   (* .dt.year *)
     Weather.월 := option_map (fun t => d_month (ts_date t)) t;    (* .dt.month *)
     Weather.날짜 := option_map ts_date t |}.                       (* .dt.date *)

Definition preprocess_weather (weather : list Weather.Raw)
  : result (list Weather.Row * list ((Z * Z) * Weather.Summary)
            * list (Timestamp * Weather.Summary)) :=
  let w0 := filter_station weather in
  ts <- to_datetime (map Weather.일시 w0) ;;
  let w := map (fun p => derive_weather (fst p) (snd p)) (combine w0 ts) in
  let monthly := agg weather_agg (groupby Weather.연도_월 w) in
  let daily := agg weather_agg (groupby Weather.날짜 w) in
  (* daily["날짜"] = pd.to_datetime(daily["날짜"]) *)
  let daily := map (fun g => (midnight (fst g), snd g)) daily in
  Ok (w, monthly, daily).
End PreprocessWeather.

(* ================================================================== *)
(** ** The joins *)

Definition daily_fire (seoul_fire : list Fire.Row) : list (Timestamp * Z) :=
  size (groupby Fire.발생일 seoul_fire).

Definition make_daily_merge {W} (seoul_fire : list Fire.Row)
           (daily_weather : list (Timestamp * W))
  : list ((Timestamp * Z) * (Timestamp * W)) :=
  merge_inner (daily_fire seoul_fire) daily_weather.

(** The tables [main] computes before it draws a page. *)
Record Tables : Type := {
  seoul_fire : list Fire.Row;
  monthly_fire : list ((Z * Z) * Z);
  cause_fire : list (string * Z);
  region_fire : list (string * Z);
  w_all : list Weather.Row;
  monthly_weather : list ((Z * Z) * Weather.Summary);
  daily_weather : list (Timestamp * Weather.Summary);
  monthly_merge : list (((Z * Z) * Z) * ((Z * Z) * Weather.Summary));
  daily_merge : list ((Timestamp * Z) * (Timestamp * Weather.Summary))
}.

Section Main.
Variable now : Timestamp.
Variable argsort : list Z -> list nat.
Variable to_datetime : list Cell -> result (list (option Timestamp)).

Definition main (fire : list Fire.Raw) (weather : list Weather.Raw)
  : result Tables :=
  f <- preprocess_fire now argsort fire ;;
  w <- preprocess_weather to_datetime weather ;;
  let '(seoul_fire, monthly_fire, cause_fire, region_fire) := f in
  let '(w_all, monthly_weather, daily_weather) := w in
  Ok {| seoul_fire := seoul_fire;
        monthly_fire := monthly_fire;
        cause_fire := cause_fire;
        region_fire := region_fire;
        w_all := w_all;
        monthly_weather := monthly_weather;
        daily_weather := daily_weather;
        monthly_merge := merge_inner monthly_fire monthly_weather;
        daily_merge := make_daily_merge seoul_fire daily_weather |}.
End Main.

(* ================================================================== *)
(** ** The encoding-resilient reader *)

(** [bytes] and [str]: a text is the list of its code points. *)
Definition bytes : Type := list byte.
Definition text : Type := list N.

(** The [errors] argument of [bytes.decode]. *)
Inductive Errors : Type := strict | ignore.

(** A single-byte codec is a table from bytes to code points; a byte the
    table does not map is a decoding error, raised under [strict] and
    skipped under [ignore]. *)
Fixpoint charmap_decode (table : byte -> option N) (errors : Errors)
         (raw : bytes) : result text :=
  match raw with
  | [] => Ok []
  | b :: raw' =>
      match table b with
      | Some c => txt <- charmap_decode table errors raw' ;; Ok (c :: txt)
      | None =>
          match errors with
          | strict => Raise UnicodeDecodeError
          | ignore => charmap_decode table errors raw'
          end
      end
  end.

(** latin1 (ISO 8859-1): byte [b] is the code point [b]. *)
Definition latin1_table (b : byte) : option N := Some (Byte.to_N b).

Definition latin1_text (raw : bytes) : text := map Byte.to_N raw.

Definition default_encodings : list string :=
  ["utf-8-sig"; "cp949"; "euc-kr"; "latin1"]%string.

Section Reader.
(** What the reader takes from its environment: the file system, the
    codecs other than latin1 ([None]: no codec of that name), and
    [pd.read_csv] on a text, producing a table or raising. *)
Variable Table : Type.
Variable read_bytes : string -> result bytes.
Variable codec : string -> option (Errors -> bytes -> result text).
Variable read_csv : text -> result Table.

(** [raw.decode(enc, errors)] *)
Definition decode (enc : string) (errors : Errors) (raw : bytes) : result text :=
  if String.eqb enc "latin1" then charmap_decode latin1_table errors raw
  else match codec enc with
       | Some d => d errors raw
       | None => Raise LookupError
       end.

(** One turn of the loop body: decode, then parse. *)
Definition attempt (raw : bytes) (enc : string) : result Table :=
  txt <- decode enc strict raw ;; read_csv txt.

(** The [for] loop: the first candidate that decodes and parses is
    returned; any exception of a candidate moves on to the next. *)
Fixpoint try_encodings (raw : bytes) (encodings : list string) : option Table :=
  match encodings with
  | [] => None
  | enc :: rest =>
      match attempt raw enc with
      | Ok t => Some t
      | Raise _ => try_encodings raw rest
      end
  end.

Definition read_csv_any (path : string) (encodings : list string) : result Table :=
  raw <- read_bytes path ;;
  match try_encodings raw encodings with
  | Some t => Ok t
  | None =>
      txt <- decode "latin1" ignore raw ;;
      read_csv txt
  end.

Definition load_data : result (Table * Table * Table) :=
  fire <- read_csv_any "화재출동데이터_2024.csv" default_encodings ;;
  weather <- read_csv_any "기상데이터_2024.csv" default_encodings ;;
  pop <- read_csv_any "인구데이터_2024.csv" default_encodings ;;
  Ok (fire, weather, pop).
End Reader.

(* ================================================================== *)
(** ** A small environment to run the pipeline in

    Stand-ins for the parameters of the model, exact on the inputs the
    examples below use: codecs that read ASCII, a parser that splits a text
    into lines of comma-separated fields and rejects the empty text, and a
    timestamp parser for [YYYY-MM-DD]. *)

Module Sample.
Definition ascii_table (b : byte) : option N :=
  if (Byte.to_N b <? 128)%N then Some (Byte.to_N b) else None.

Definition codec (enc : string) : option (Errors -> bytes -> result text) :=
  if String.eqb enc "utf-8-sig" || String.eqb enc "cp949" || String.eqb enc "euc-kr"
  then Some (charmap_decode ascii_table)
  else None.

Fixpoint split_on (sep : N) (txt : text) : list text :=
  match txt with
  | [] => [[]]
  | c :: txt' =>
      if (c =? sep)%N then [] :: split_on sep txt'
      else match split_on sep txt' with
           | [] => [[c]]
           | w :: ws => (c :: w) :: ws
           end
  end.

Definition read_csv (txt : text) : result (list (list text)) :=
  match txt with
  | [] => Raise EmptyDataError
  | _ => Ok (map (split_on 44%N) (split_on 10%N txt))
  end.

Definition file_system (path : string) : result bytes :=
  if String.eqb path "a.csv" then Ok [x61; x2c; x62; x0a; x31; x2c; x32]
  else if String.eqb path "empty.csv" then Ok []
  else Raise OSError.

Definition now : Timestamp :=
  midnight {| d_year := 2024; d_month := 12; d_day := 1 |}.

Definition to_datetime_1 (c : Cell) : result (option Timestamp) :=
  match c with
  | CNaN => Ok None
  | CInt _ => Raise ValueError
  | CStr s =>
      match list_ascii_of_string s with
      | [y1; y2; y3; y4; "-"%char; m1; m2; "-"%char; d1; d2] =>
          if forallb is_digit [y1; y2; y3; y4; m1; m2; d1; d2] then
            let d := {| d_year := 1000 * digit y1 + 100 * digit y2
                                  + 10 * digit y3 + digit y4;
                        d_month := 10 * digit m1 + digit m2;
                        d_day := 10 * digit d1 + digit d2 |} in
            if valid_date d && in_bounds d then Ok (Some (midnight d))
            else Raise ValueError
          else Raise ValueError
      | _ => Raise ValueError
      end
  end.

Definition to_datetime (col : list Cell) : result (list (option Timestamp)) :=
  mapM to_datetime_1 col.
End Sample.

(* ================================================================== *)
(** ** Vocabulary of the properties *)

(** [sum(summary.count)] *)
Definition count_sum {K} (summary : list (K * Z)) : Z :=
  fold_right Z.add 0 (map snd summary).

(** A date written with eight digits, [YYYYMMDD]. *)
Definition date_of_digits (a b c d e f g h : ascii) : Date :=
  {| d_year := 1000 * digit a + 100 * digit b + 10 * digit c + digit d;
     d_month := 10 * digit e + digit f;
     d_day := 10 * digit g + digit h |}.

Definition yyyymmdd (s : string) : option Date :=
  match list_ascii_of_string s with
  | [a; b; c; d; e; f; g; h] =>
      if forallb is_digit [a; b; c; d; e; f; g; h]
      then Some (date_of_digits a b c d e f g h)
      else None
  | _ => None
  end.

(** Exactly eight digits that name a day of the calendar. *)
Definition is_valid_yyyymmdd (s : string) : bool :=
  match yyyymmdd s with
  | Some d => valid_date d
  | None => false
  end.

(** A date text the [%Y%m%d] parser accepts for sure: a valid 8-digit date
    inside the datetime64[ns] range, or a missing value. *)
Definition date_text_fine (s : string) : bool :=
  match yyyymmdd s with
  | Some d => valid_date d && in_bounds d
  | None => String.eqb s "nan"
  end.

(** The text of the date cell of a row, taken by itself. *)
Definition fire_date_text (r : Fire.Raw) : string := astype_str (Fire.OCRN_YMD r).

(** The text [astype(str)] gives the date cell of the row [r] of the table
    [fire]: the cell is written under the dtype of the date column of the
    whole table. *)
Definition date_text_in (fire : list Fire.Raw) (r : Fire.Raw) : string :=
  astype_str_as (column_dtype (map Fire.OCRN_YMD fire)) (Fire.OCRN_YMD r).

(** The texts the parser reads without looking for a date in them. *)
Definition special_texts : list string :=
  ("" :: "now" :: "today" :: nat_strings)%string.

Definition digit_or_space (c : ascii) : Prop :=
  is_digit c = true \/ c = " "%char.

(** The position of the first row with key [k] (the number of rows when
    there is none). *)
Fixpoint first_seen {R} (key : R -> option string) (k : string) (rows : list R) : nat :=
  match rows with
  | [] => O
  | r :: rows' =>
      if cell_is k (key r) then O else S (first_seen key k rows')
  end.

(** Descending by count. *)
Definition count_descending (summary : list (string * Z)) : Prop :=
  StronglySorted (fun a b => snd b <= snd a) summary.

(** Among rows of equal count, the key met first in the table comes
    first. *)
Definition ties_by_first_seen {R} (key : R -> option string) (rows : list R)
           (summary : list (string * Z)) : Prop :=
  StronglySorted
    (fun a b => snd a = snd b ->
                (first_seen key (fst a) rows < first_seen key (fst b) rows)%nat)
    summary.

Definition cause_key (r : Fire.Row) : option string :=
  Fire.IGTN_DMNT_LCLSF_NM (Fire.raw r).
Definition sub_region_key (r : Fire.Row) : option string :=
  Fire.GRNDS_SGG_NM (Fire.raw r).

(** [merged] is the inner join of [left] and [right] on their keys. *)
Definition inner_join_of {K A B} (left : list (K * A)) (right : list (K * B))
           (merged : list ((K * A) * (K * B))) : Prop :=
  (forall l r, In (l, r) merged <-> In l left /\ In r right /\ fst l = fst r)
  /\ (forall k, In k (map merged_key merged) <->
                In k (map fst left) /\ In k (map fst right))
  /\ (NoDup (map fst left) -> NoDup (map fst right) ->
      NoDup (map merged_key merged))
  /\ (left = [] \/ right = [] -> merged = []).

(** The rows that belong to some group. *)
Definition group_total {K R} (gs : list (K * list R)) : nat :=
  list_sum (map (fun g => List.length (snd g)) gs).

Definition digits : list ascii :=
  ["0"; "1"; "2"; "3"; "4"; "5"; "6"; "7"; "8"; "9"]%char.

(** On two digits of a month and two digits of a day, the regular
    expression reads the month and the day the digits spell. *)
Definition reads_month_day (e f g h : ascii) : bool :=
  let m := 10 * digit e + digit f in
  let d := 10 * digit g + digit h in
  if (1 <=? m) && (m <=? 12) && (1 <=? d) && (d <=? 31) then
    match match_md [e; f; g; h] with
    | Some ((m', d'), []) => (m' =? m) && (d' =? d)
    | _ => false
    end
  else true.

(** When the regular expression matches two digits of month and two of
    day up to their end, it reads the month and the day they spell. *)
Definition full_match_spells (e f g h : ascii) : bool :=
  match match_md [e; f; g; h] with
  | Some ((m, d), []) =>
      (m =? 10 * digit e + digit f) && (d =? 10 * digit g + digit h)
  | _ => true
  end.

(** A candidate encoding fails: its decoding or the parse of its text
    raises. *)
Definition fails {Table} (codec : string -> option (Errors -> bytes -> result text))
           (read_csv : text -> result Table) (raw : bytes) (enc : string) : Prop :=
  is_ok (attempt codec read_csv raw enc) = false.

(** ** Tables of the examples *)

Definition incident (region sub_region : string) (yr mm : option Z) (ymd : Cell)
           (cause : string) : Fire.Raw :=
  {| Fire.GRNDS_CTPV_NM := Some region;
     Fire.GRNDS_SGG_NM := Some sub_region;
     Fire.OCRN_YR := yr;
     Fire.OCRN_MM := mm;
     Fire.OCRN_YMD := ymd;
     Fire.IGTN_DMNT_LCLSF_NM := Some cause;
     Fire.DTH_CNT := Some 0;
     Fire.INJPSN_CNT := Some 0;
     Fire.PRPT_DAM_AMT := Some 0 |}.

(** Three incidents of the region, dated 20240101, 20240101, 20240215, and
    one of another region. *)
Definition fire_scenario : list Fire.Raw :=
  [ incident 서울특별시 "Jongno" (Some 2024) (Some 1) (CInt 20240101) "electrical";
    incident 서울특별시 "Mapo" (Some 2024) (Some 1) (CInt 20240101) "careless";
    incident "Busan" "Haeundae" (Some 2024) (Some 1) (CInt 20240105) "careless";
    incident 서울특별시 "Jongno" (Some 2024) (Some 2) (CInt 20240215) "careless" ].

(** One incident of the region whose year cell is empty. *)
Definition fire_missing_year : list Fire.Raw :=
  [ incident 서울특별시 "Jongno" None (Some 1) (CInt 20240101) "electrical" ].

(** One incident of the region whose date cell is empty. *)
Definition fire_missing_date : list Fire.Raw :=
  [ incident 서울특별시 "Jongno" (Some 2024) (Some 1) CNaN "electrical" ].

(** One incident whose year and month columns disagree with its date. *)
Definition fire_inconsistent : list Fire.Raw :=
  [ incident 서울특별시 "Jongno" (Some 2023) (Some 5) (CInt 20240101) "electrical" ].

(** The same two incidents, one of each cause, in the two row orders. *)
Definition fire_ba : list Fire.Raw :=
  [ incident 서울특별시 "Mapo" (Some 2024) (Some 1) (CInt 20240101) "b";
    incident 서울특별시 "Jongno" (Some 2024) (Some 1) (CInt 20240102) "a" ].

Definition fire_ab : list Fire.Raw :=
  [ incident 서울특별시 "Jongno" (Some 2024) (Some 1) (CInt 20240102) "a";
    incident 서울특별시 "Mapo" (Some 2024) (Some 1) (CInt 20240101) "b" ].

(** A valid date in the region, and an empty date cell in a row of
    another region: the date column is float64. *)
Definition fire_empty_elsewhere : list Fire.Raw :=
  [ incident 서울특별시 "Jongno" (Some 2024) (Some 1) (CInt 20240101) "electrical";
    incident "Busan" "Haeundae" (Some 2024) (Some 1) CNaN "careless" ].

(** Eight digits that name no day: the 30th of February. *)
Definition fire_february_30 : list Fire.Raw :=
  [ incident 서울특별시 "Jongno" (Some 2024) (Some 2) (CInt 20240230) "electrical" ].

(** No incident of the region. *)
Definition fire_elsewhere : list Fire.Raw :=
  [ incident "Busan" "Haeundae" (Some 2024) (Some 1) (CInt 20240105) "careless" ].

Definition observation (station : string) (at_ : string) (t h p : Q) : Weather.Raw :=
  {| Weather.지점명 := Some station;
     Weather.일시 := CStr at_;
     Weather.기온 := Some t;
     Weather.습도 := Some h;
     Weather.강수량 := Some p |}.

(** Two observations for 2024-01-01 (0 and 4 degrees), one for the next
    day. *)
Definition weather_scenario : list Weather.Raw :=
  [ observation 서울 "2024-01-01" 0 (60 # 1) (3 # 2);
    observation 서울 "2024-01-01" (4 # 1) (70 # 1) (5 # 2);
    observation 서울 "2024-01-02" (1 # 1) (50 # 1) 0 ].

(** Weather of February only. *)
Definition weather_february : list Weather.Raw :=
  [ observation 서울 "2024-02-15" (3 # 1) (40 # 1) 0 ].

Definition jan_1 : Date := {| d_year := 2024; d_month := 1; d_day := 1 |}.
Definition feb_15 : Date := {| d_year := 2024; d_month := 2; d_day := 15 |}.

(* ================================================================== *)
(** ** [page_overview]: the tables behind the overview page

    The page reads two selections, a year and a sub-region ("전체" for all
    of them), and draws its figures and charts from the tables below,
    named after the variables that hold them.  The casualty and
    property-damage figures and the drawing itself are left out. *)

Definition 전체 : string := "전체".

(** The integers of a column, its missing cells left out. *)
Definition present (xs : list (option Z)) : list Z :=
  flat_map (fun x => match x with Some z => [z] | None => [] end) xs.

(** An int64 result keeps the low 64 bits, read as a signed integer. *)
Definition wrap64 (z : Z) : Z := (z + 2 ^ 63) mod 2 ^ 64 - 2 ^ 63.

Section ColumnSum.
(** The sum of float64 cells of integer value, missing cells already left
    out.  Float addition rounds and the result depends on the order of the
    additions, so the function is a parameter of the model. *)
Variable float_sum : list Z -> Z.

(** [groupby(...)[column].sum()] on the cells of one group, for a column of
    counts of dtype [t]: missing cells are skipped; an int64 sum wraps
    around, a float64 sum is the float sum, and an object column of Python
    integers adds without bound. *)
Definition column_sum (t : dtype) (xs : list (option Z)) : Z :=
  match t with
  | int64 => wrap64 (fold_right Z.add 0 (present xs))
  | float64 => float_sum (present xs)
  | object => fold_right Z.add 0 (present xs)
  end.
End ColumnSum.

(** [series == value] on an integer column. *)
Definition int_is (value : Z) (c : option Z) : bool :=
  match c with
  | Some z => z =? value
  | None => false
  end.

(** [range(1, 13)] *)
Definition months : list Z := [1; 2; 3; 4; 5; 6; 7; 8; 9; 10; 11; 12].

(** [series.reindex(labels, fill_value=fill)] on a series with distinct
    index values: one entry per label, in the order of the labels, the
    value of the label when the series has it and [fill] otherwise. *)
Definition reindex {K V} `{Ord K} (labels : list K) (fill : V)
           (series : list (K * V)) : list (K * V) :=
  map (fun l => (l, match lookup l series with
                    | Some v => v
                    | None => fill
                    end)) labels.

(** [group["DTH_CNT"].sum()] *)
Definition deaths (float_sum : list Z -> Z) (t : dtype) (rows : list Fire.Row) : Z :=
  column_sum float_sum t (map (fun r => Fire.DTH_CNT (Fire.raw r)) rows).

Section PageOverview.
Variable argsort : list Z -> list nat.
(** The float sum, and the dtype of the [DTH_CNT] column of [seoul_fire]:
    it is the dtype the column has in the incident file, int64 unless a
    cell of the file is empty. *)
Variable float_sum : list Z -> Z.
Variable dth : dtype.
Variable seoul_fire : list Fire.Row.
Variable year : Z.
Variable gu : string.

(** [seoul_fire[seoul_fire["연도"] == year]] *)
Definition year_rows : list Fire.Row :=
  filter (fun r => int_is year (Fire.연도 r)) seoul_fire.

Definition filtered : list Fire.Row :=
  if negb (String.eqb gu 전체)
  then filter (fun r => cell_is gu (sub_region_key r)) year_rows
  else year_rows.

(** The first figure: [len(filtered)]. *)
Definition kpi_fires : Z := Z.of_nat (List.length filtered).

(** [filtered.groupby("월").size().reindex(range(1, 13), fill_value=0)] *)
Definition monthly_fire_trend : list (Z * Z) :=
  reindex months 0 (size (groupby Fire.월 filtered)).

(** [filtered.groupby("월")["DTH_CNT"].sum().reindex(range(1, 13), fill_value=0)] *)
Definition monthly_death_trend : list (Z * Z) :=
  reindex months 0 (agg (deaths float_sum dth) (groupby Fire.월 filtered)).

(** [... .sort_values("건수", ascending=False).head(10)] *)
Definition cause_sel : list (string * Z) :=
  firstn 10 (ranking argsort cause_key filtered).

(** The sub-region chart is drawn from the rows of the year, whatever the
    sub-region selected. *)
Definition region_sel : list (string * Z) :=
  ranking argsort sub_region_key year_rows.
End PageOverview.

(** The rows whose month is one of the twelve. *)
Definition in_calendar (r : Fire.Row) : bool :=
  match Fire.월 r with
  | Some m => (1 <=? m) && (m <=? 12)
  | None => false
  end.

(** [load_data] reads the three files in this order. *)
Definition fire_csv : string := "화재출동데이터_2024.csv".
Definition weather_csv : string := "기상데이터_2024.csv".
Definition pop_csv : string := "인구데이터_2024.csv".

(** The integer that writes a date with eight digits. *)
Definition yyyymmdd_int (d : Date) : Z :=
  d_year d * 10000 + d_month d * 100 + d_day d.

(** Decimal numerals, digit by digit: the numeral that starts with the
    digit [k], the value of a numeral read after the digits of value [acc],
    and the character of a digit. *)
Definition digit_uint (k : nat) (rest : Decimal.uint) : Decimal.uint :=
  match k with
  | 0%nat => Decimal.D0 rest
  | 1%nat => Decimal.D1 rest
  | 2%nat => Decimal.D2 rest
  | 3%nat => Decimal.D3 rest
  | 4%nat => Decimal.D4 rest
  | 5%nat => Decimal.D5 rest
  | 6%nat => Decimal.D6 rest
  | 7%nat => Decimal.D7 rest
  | 8%nat => Decimal.D8 rest
  | _ => Decimal.D9 rest
  end.

Fixpoint uint_value (d : Decimal.uint) (acc : Z) : Z :=
  match d with
  | Decimal.Nil => acc
  | Decimal.D0 l => uint_value l (10 * acc)
  | Decimal.D1 l => uint_value l (10 * acc + 1)
  | Decimal.D2 l => uint_value l (10 * acc + 2)
  | Decimal.D3 l => uint_value l (10 * acc + 3)
  | Decimal.D4 l => uint_value l (10 * acc + 4)
  | Decimal.D5 l => uint_value l (10 * acc + 5)
  | Decimal.D6 l => uint_value l (10 * acc + 6)
  | Decimal.D7 l => uint_value l (10 * acc + 7)
  | Decimal.D8 l => uint_value l (10 * acc + 8)
  | Decimal.D9 l => uint_value l (10 * acc + 9)
  end.

Definition digit_char (k : nat) : ascii := ascii_of_nat (48 + k).

(** The sum of a weight over the rows of a table. *)
Definition weigh {R} (wt : R -> Z) (rows : list R) : Z :=
  fold_right (fun r acc => wt r + acc) 0 rows.

(** The death count of a row as an integer, a missing count being 0. *)
Definition deaths_of (r : Fire.Row) : Z :=
  match Fire.DTH_CNT (Fire.raw r) with Some z => z | None => 0 end.

(** The magnitudes of a list of integers, added up. *)
Definition magnitude (xs : list Z) : Z :=
  fold_right (fun x acc => Z.abs x + acc) 0 xs.

(** What is known of the float sum: float64 holds every integer up to 2^53
    exactly, so integers whose magnitudes add up to at most 2^53 are added
    without rounding, in whatever order. *)
Definition exact_below_2_53 (float_sum : list Z -> Z) : Prop :=
  forall xs, magnitude xs <= 2 ^ 53 -> float_sum xs = fold_right Z.add 0 xs.

(** The exact sum, which meets this contract. *)
Definition exact_sum (xs : list Z) : Z := fold_right Z.add 0 xs.

(** Two incidents of January with 2^62 deaths each. *)
Definition seoul_overflow : list Fire.Row :=
  let raw :=
    {| Fire.GRNDS_CTPV_NM := Some 서울특별시;
       Fire.GRNDS_SGG_NM := Some "Jongno"%string;
       Fire.OCRN_YR := Some 2024;
       Fire.OCRN_MM := Some 1;
       Fire.OCRN_YMD := CInt 20240101;
       Fire.IGTN_DMNT_LCLSF_NM := Some "electrical"%string;
       Fire.DTH_CNT := Some (2 ^ 62);
       Fire.INJPSN_CNT := Some 0;
       Fire.PRPT_DAM_AMT := Some 0 |} in
  let row := {| Fire.raw := raw; Fire.연도 := Some 2024; Fire.월 := Some 1;
                Fire.발생일 := None |} in
  [row; row].

(** Strictly ascending keys. *)
Definition ascending {K} `{Ord K} (ks : list K) : Prop :=
  StronglySorted (fun a b => cmp a b = Lt) ks.

(** The derived table of [fire_scenario]. *)
Definition seoul_scenario : list Fire.Row :=
  match preprocess_fire Sample.now stable_argsort fire_scenario with
  | Ok (seoul, _, _, _) => seoul
  | Raise _ => []
  end.

(** The days of the month [m] of the year [y]. *)
Definition in_month (y m : Z) (d : Date) : bool :=
  (d_year d =? y) && (d_month d =? m).

(** A merged row with its two sides exchanged. *)
Definition exchange {A B} (p : A * B) : B * A := (snd p, fst p).

(** The rows of the groups whose key satisfies [P], group after group. *)
Definition grouped_rows {K R} (P : K -> bool) (gs : list (K * list R)) : list R :=
  List.concat (map snd (filter (fun g => P (fst g)) gs)).
(* ================================================================== *)
(** * Properties *)

(** ** The key orders are total orders *)

Lemma eqb_key_true {K} `{OrdLaws K} (x y : K) : eqb_key x y = true <-> x = y.
Proof.
  unfold eqb_key. rewrite <- cmp_eq. destruct (cmp x y); split; congruence.
Qed.

Lemma cmp_refl {K} `{OrdLaws K} (x : K) : cmp x x = Eq.
Proof. now apply cmp_eq. Qed.

Lemma eqb_key_refl {K} `{OrdLaws K} (x : K) : eqb_key x x = true.
Proof. now apply eqb_key_true. Qed.

Lemma cmp_gt_lt {K} `{OrdLaws K} (x y : K) : cmp x y = Gt -> cmp y x = Lt.
Proof. intros E. rewrite cmp_antisym, E. reflexivity. Qed.

#[export] Instance OrdLaws_Z : OrdLaws Z.
Proof.
  split; unfold cmp, Ord_Z.
  - intros x y. apply Z.compare_eq_iff.
  - intros x y. apply Z.compare_antisym.
  - intros x y z. rewrite !Z.compare_lt_iff. lia.
Qed.

Lemma ascii_compare_trans (a b c : ascii) :
  Ascii.compare a b = Lt -> Ascii.compare b c = Lt -> Ascii.compare a c = Lt.
Proof.
  unfold Ascii.compare. rewrite !N.compare_lt_iff. apply N.lt_trans.
Qed.

Lemma string_compare_refl (s : string) : String.compare s s = Eq.
Proof.
  induction s as [|a s IH]; simpl; [reflexivity|].
  unfold Ascii.compare. now rewrite N.compare_refl.
Qed.

Lemma string_compare_trans (x y z : string) :
  String.compare x y = Lt -> String.compare y z = Lt -> String.compare x z = Lt.
Proof.
  revert y z. induction x as [|a x IH]; intros [|b y] [|c z]; simpl;
    try congruence.
  destruct (Ascii.compare a b) eqn:Eab; try discriminate.
  - apply Ascii.compare_eq_iff in Eab. subst b.
    destruct (Ascii.compare a c); try congruence. apply IH.
  - intros _. destruct (Ascii.compare b c) eqn:Ebc; try discriminate.
    + apply Ascii.compare_eq_iff in Ebc. subst c. now rewrite Eab.
    + intros _. now rewrite (ascii_compare_trans _ _ _ Eab Ebc).
Qed.

#[export] Instance OrdLaws_string : OrdLaws string.
Proof.
  split; unfold cmp, Ord_string.
  - intros x y. split.
    + apply String.compare_eq_iff.
    + intros ->. apply string_compare_refl.
  - intros x y. apply String.compare_antisym.
  - apply string_compare_trans.
Qed.

Lemma cmp_pair {A B} `{Ord A} `{Ord B} (a a' : A) (b b' : B) :
  cmp (a, b) (a', b') = match cmp a a' with Eq => cmp b b' | c => c end.
Proof. reflexivity. Qed.

#[export] Instance OrdLaws_prod {A B} `{OrdLaws A} `{OrdLaws B} : OrdLaws (A * B).
Proof.
  split.
  - intros [a b] [a' b']. rewrite cmp_pair. split.
    + destruct (cmp a a') eqn:E; try discriminate.
      intros E'. apply cmp_eq in E, E'. congruence.
    + intros [= -> ->]. now rewrite !cmp_refl.
  - intros [a b] [a' b']. rewrite !cmp_pair.
    rewrite (cmp_antisym a a'). destruct (cmp a a'); simpl; auto.
    apply cmp_antisym.
  - intros [a b] [a' b'] [a'' b'']. rewrite !cmp_pair.
    destruct (cmp a a') eqn:E1; try discriminate;
      destruct (cmp a' a'') eqn:E2; try discriminate; intros H1 H2.
    + apply cmp_eq in E1, E2. subst. rewrite cmp_refl. eapply cmp_trans; eauto.
    + apply cmp_eq in E1. subst. now rewrite E2.
    + apply cmp_eq in E2. subst. now rewrite E1.
    + now rewrite (cmp_trans _ _ _ E1 E2).
Qed.

Lemma OrdLaws_via {A B} `{OrdLaws B} (f : A -> B) :
  (forall x y, f x = f y -> x = y) -> @OrdLaws A (Ord_via f).
Proof.
  intros inj. split.
  - intros x y. change (cmp (f x) (f y) = Eq <-> x = y).
    rewrite cmp_eq. split; [apply inj | congruence].
  - intros x y. exact (cmp_antisym (f x) (f y)).
  - intros x y z. exact (cmp_trans (f x) (f y) (f z)).
Qed.


#[export] Instance OrdLaws_Date : OrdLaws Date.
Proof.
  apply OrdLaws_via. intros [y m d] [y' m' d']. unfold date_tuple; simpl.
  congruence.
Qed.

#[export] Instance OrdLaws_Timestamp : OrdLaws Timestamp.
Proof.
  apply OrdLaws_via. intros [[y m d] n] [[y' m' d'] n'].
  unfold ts_tuple, date_tuple; simpl. congruence.
Qed.

(** ** Results *)

Lemma mapM_length {A B} (f : A -> result B) (l : list A) (bs : list B) :
  mapM f l = Ok bs -> List.length bs = List.length l.
Proof.
  revert bs. induction l as [|a l IH]; simpl; intros bs E.
  - now inversion E.
  - destruct (f a); simpl in E; [|discriminate].
    destruct (mapM f l); simpl in E; [|discriminate].
    inversion E; subst. simpl. f_equal. now apply IH.
Qed.

Lemma mapM_Forall2 {A B} (f : A -> result B) (l : list A) (bs : list B) :
  mapM f l = Ok bs <-> Forall2 (fun a b => f a = Ok b) l bs.
Proof.
  revert bs. induction l as [|a l IH]; simpl; intros bs.
  - split; intros E; [inversion E; constructor | inversion E; reflexivity].
  - split.
    + destruct (f a) eqn:Ea; simpl; [|discriminate].
      destruct (mapM f l) eqn:El; simpl; [|discriminate].
      intros [= <-]. constructor; [assumption | now apply IH].
    + intros E. inversion E as [|? b ? bs' Ea Hl]; subst.
      rewrite Ea; simpl. apply IH in Hl. rewrite Hl. reflexivity.
Qed.

(** The traversal fails exactly when some element does. *)
Lemma mapM_raises {A B} (f : A -> result B) (l : list A) :
  (exists e, mapM f l = Raise e) <-> (exists a e, In a l /\ f a = Raise e).
Proof.
  induction l as [|a l IH]; simpl.
  - split; [intros [e E]; discriminate | intros (a & e & [] & _)].
  - destruct (f a) eqn:Ea; simpl.
    + destruct (mapM f l) eqn:El; simpl.
      * split; [intros [e E]; discriminate|].
        intros (a' & e & [<- | Hin] & E); [congruence|].
        destruct IH as [_ IH]. destruct IH as [e' E']; [eauto | discriminate].
      * split; [|eauto]. intros _.
        destruct IH as [IH _]. destruct IH as (a' & e' & Hin & E'); eauto 6.
    + split; eauto 6.
Qed.

(** ** [groupby] *)

Section GroupByFacts.
Context {K : Type} {O : Ord K} {OL : OrdLaws K} {R : Type}.
Implicit Types (k : K) (r : R) (gs : list (K * list R)).

Lemma eqb_key_sym k k' : eqb_key k k' = eqb_key k' k.
Proof.
  unfold eqb_key. rewrite (cmp_antisym k k'). now destruct (cmp k k').
Qed.

Lemma lookup_above {V} k (t : list (K * V)) :
  Forall (fun p => cmp k (fst p) = Lt) t -> lookup k t = None.
Proof.
  induction 1 as [|[k' v] t Hlt _ IH]; simpl; [reflexivity|].
  unfold eqb_key. simpl in Hlt. now rewrite Hlt.
Qed.

Lemma key_sorted_tail {V} (p : K * V) (t : list (K * V)) :
  key_sorted (p :: t) -> key_sorted t /\ Forall (key_lt p) t.
Proof. intros S. now inversion S. Qed.

Lemma Forall_key_lt_trans {V} (p q : K * V) (t : list (K * V)) :
  cmp (fst p) (fst q) = Lt -> Forall (key_lt q) t -> Forall (key_lt p) t.
Proof.
  intros Hpq. apply Forall_impl. intros a Ha. unfold key_lt in *.
  eapply cmp_trans; eauto.
Qed.

Lemma group_insert_keys k r gs (p : K * list R) :
  In p (group_insert k r gs) -> fst p = k \/ exists q, In q gs /\ fst q = fst p.
Proof.
  induction gs as [|[k' rs] gs IH]; simpl.
  - intros [<- | []]. now left.
  - destruct (cmp k k') eqn:E; simpl.
    + intros [<- | Hin]; right; eauto.
    + intros [<- | [<- | Hin]]; eauto.
    + intros [<- | Hin]; [right; eauto|].
      destruct (IH Hin) as [-> | (q & Hq & Eq)]; eauto.
Qed.

Lemma group_insert_sorted k r gs :
  key_sorted gs -> key_sorted (group_insert k r gs).
Proof.
  induction gs as [|[k' rs] gs IH]; simpl; intros S.
  - repeat constructor.
  - apply key_sorted_tail in S as [S Hlt].
    destruct (cmp k k') eqn:E.
    + constructor; [assumption|]. revert Hlt. apply Forall_impl.
      intros a Ha. exact Ha.
    + constructor; [now constructor|]. constructor; [exact E|].
      apply Forall_key_lt_trans with (q := (k', rs)); assumption.
    + constructor; [now apply IH|]. apply Forall_forall. intros p Hin.
      apply group_insert_keys in Hin as [Ep | (q & Hq & Eq)].
      * unfold key_lt; simpl. rewrite Ep. now apply cmp_gt_lt.
      * rewrite Forall_forall in Hlt. specialize (Hlt q Hq).
        unfold key_lt in *. now rewrite <- Eq.
Qed.

Lemma lookup_group_insert k r gs k0 :
  key_sorted gs ->
  lookup k0 (group_insert k r gs) =
    if eqb_key k0 k
    then Some (match lookup k gs with Some rs => rs ++ [r] | None => [r] end)
    else lookup k0 gs.
Proof.
  induction gs as [|[k' rs] gs IH]; simpl; intros S.
  - now destruct (eqb_key k0 k).
  - apply key_sorted_tail in S as [S Hlt].
    unfold eqb_key at 2. destruct (cmp k k') eqn:E; simpl.
    + apply cmp_eq in E. subst k'. now destruct (eqb_key k0 k).
    + destruct (eqb_key k0 k) eqn:E0; [|reflexivity].
      rewrite lookup_above; [reflexivity|].
      apply Forall_key_lt_trans with (p := (k, rs)) in Hlt; [|exact E].
      exact Hlt.
    + rewrite (IH S). destruct (eqb_key k0 k) eqn:E0.
      * apply eqb_key_true in E0. subst k0.
        unfold eqb_key. now rewrite E.
      * reflexivity.
Qed.

Variable key : R -> option K.

Lemma fold_group_sorted rows gs :
  key_sorted gs -> key_sorted (fold_left (group_step key) rows gs).
Proof.
  revert gs. induction rows as [|r rows IH]; simpl; intros gs S; [exact S|].
  apply IH. unfold group_step. destruct (key r); [|exact S].
  now apply group_insert_sorted.
Qed.

Lemma lookup_fold_group k rows gs :
  key_sorted gs ->
  lookup k (fold_left (group_step key) rows gs) =
    extend (lookup k gs) (rows_with key k rows).
Proof.
  revert gs. induction rows as [|r rows IH]; simpl; intros gs S.
  - now destruct (lookup k gs) as [rs|]; simpl; rewrite ?app_nil_r.
  - rewrite IH.
    2:{ unfold group_step. destruct (key r); [|exact S].
        now apply group_insert_sorted. }
    unfold group_step, has_key. destruct (key r) as [k1|]; [|reflexivity].
    rewrite lookup_group_insert by exact S.
    destruct (eqb_key k k1) eqn:E; [|reflexivity].
    apply eqb_key_true in E. subst k1.
    destruct (lookup k gs) as [rs|]; simpl.
    + now rewrite <- app_assoc.
    + reflexivity.
Qed.

Lemma groupby_sorted rows : key_sorted (groupby key rows).
Proof. apply fold_group_sorted. constructor. Qed.

(** The group of a key holds the rows of that key, in row order; a key
    without a row has no group. *)
Lemma lookup_groupby k rows :
  lookup k (groupby key rows) =
    match rows_with key k rows with
    | [] => None
    | rs => Some rs
    end.
Proof.
  unfold groupby. rewrite lookup_fold_group by constructor. simpl.
  now destruct (rows_with key k rows).
Qed.

Lemma In_lookup {V} (t : list (K * V)) k v :
  key_sorted t -> (In (k, v) t <-> lookup k t = Some v).
Proof.
  induction t as [|[k' v'] t IH]; simpl; intros S.
  - split; [intros [] | discriminate].
  - apply key_sorted_tail in S as [S Hlt]. split.
    + intros [[= -> ->] | Hin].
      * now rewrite eqb_key_refl.
      * rewrite Forall_forall in Hlt. specialize (Hlt _ Hin).
        unfold key_lt in Hlt; simpl in Hlt.
        unfold eqb_key. rewrite (cmp_antisym k' k), Hlt. simpl.
        now apply IH.
    + destruct (eqb_key k k') eqn:E.
      * apply eqb_key_true in E. subst k'. intros [= ->]. now left.
      * intros L. right. now apply IH.
Qed.

Lemma key_sorted_NoDup {V} (t : list (K * V)) :
  key_sorted t -> NoDup (map fst t).
Proof.
  induction t as [|p t IH]; simpl; intros S; [constructor|].
  apply key_sorted_tail in S as [S Hlt]. constructor; [|now apply IH].
  intros Hin. apply in_map_iff in Hin as (q & Eq & Hq).
  rewrite Forall_forall in Hlt. specialize (Hlt q Hq). unfold key_lt in Hlt.
  rewrite Eq, cmp_refl in Hlt. discriminate.
Qed.

Lemma key_sorted_map {V W} (f : K * V -> K * W) (t : list (K * V)) :
  (forall p, fst (f p) = fst p) -> key_sorted t -> key_sorted (map f t).
Proof.
  intros Hf. induction t as [|p t IH]; simpl; intros S; [constructor|].
  apply key_sorted_tail in S as [S Hlt]. constructor; [now apply IH|].
  apply Forall_map. revert Hlt. apply Forall_impl. intros q Hq.
  unfold key_lt in *. simpl. now rewrite !Hf.
Qed.

Lemma lookup_map {V W} (g : V -> W) (t : list (K * V)) k :
  lookup k (map (fun p => (fst p, g (snd p))) t) = option_map g (lookup k t).
Proof.
  induction t as [|[k' v] t IH]; simpl; [reflexivity|].
  now destruct (eqb_key k k').
Qed.

Lemma group_insert_total k r gs :
  group_total (group_insert k r gs) = S (group_total gs).
Proof.
  unfold group_total.
  induction gs as [|[k' rs] gs IH]; simpl; [reflexivity|].
  destruct (cmp k k'); simpl.
  - rewrite length_app; simpl. lia.
  - reflexivity.
  - rewrite IH. lia.
Qed.

Lemma fold_group_total rows gs :
  group_total (fold_left (group_step key) rows gs) =
    (group_total gs + List.length (filter (keyed key) rows))%nat.
Proof.
  revert gs. induction rows as [|r rows IH]; simpl; intros gs; [lia|].
  rewrite IH. unfold group_step, keyed. destruct (key r); simpl.
  - rewrite group_insert_total. lia.
  - reflexivity.
Qed.

Lemma groupby_total rows :
  group_total (groupby key rows) = List.length (filter (keyed key) rows).
Proof. unfold groupby. now rewrite fold_group_total. Qed.
End GroupByFacts.

(** ** [merge] *)

Section MergeFacts.
Context {K : Type} {O : Ord K} {OL : OrdLaws K} {A B : Type}.
Implicit Types (left : list (K * A)) (right : list (K * B)).

Lemma In_merge_inner left right (l : K * A) (r : K * B) :
  In (l, r) (merge_inner left right) <->
  In l left /\ In r right /\ fst l = fst r.
Proof.
  unfold merge_inner. rewrite in_flat_map. split.
  - intros (l' & Hl & Hin). apply in_map_iff in Hin as (r' & [= -> ->] & Hr).
    apply filter_In in Hr as [Hr E]. apply eqb_key_true in E. auto.
  - intros (Hl & Hr & E). exists l. split; [assumption|].
    apply in_map. apply filter_In. split; [assumption|].
    now apply eqb_key_true.
Qed.

Lemma merged_keys left right (k : K) :
  In k (map merged_key (merge_inner left right)) <->
  In k (map fst left) /\ In k (map fst right).
Proof.
  rewrite !in_map_iff. split.
  - intros ([l r] & <- & Hin). apply In_merge_inner in Hin as (Hl & Hr & E).
    unfold merged_key; simpl. split; [now exists l | exists r; auto].
  - intros [(l & <- & Hl) (r & E & Hr)]. exists (l, r). split; [reflexivity|].
    apply In_merge_inner. auto.
Qed.

Lemma merge_inner_nil_r left : merge_inner left (@nil (K * B)) = [].
Proof. unfold merge_inner. induction left; simpl; auto. Qed.

(** With distinct keys on the right, a left row finds at most one
    partner. *)
Lemma partners_NoDup right (k : K) :
  NoDup (map fst right) ->
  map fst (filter (fun r => eqb_key k (fst r)) right) =
    if existsb (eqb_key k) (map fst right) then [k] else [].
Proof.
  induction right as [|[k' b] right IH]; simpl; intros N; [reflexivity|].
  inversion N as [|? ? Hnot N']; subst.
  destruct (eqb_key k k') eqn:E; simpl.
  - apply eqb_key_true in E. subst k'. f_equal.
    destruct (filter (fun r => eqb_key k (fst r)) right) as [|[k1 b1] t] eqn:F;
      [reflexivity|].
    exfalso. apply Hnot.
    assert (Hin : In (k1, b1) (filter (fun r => eqb_key k (fst r)) right))
      by (rewrite F; now left).
    apply filter_In in Hin as [Hin E]. apply eqb_key_true in E. simpl in E.
    subst k1. now apply (in_map fst) in Hin.
  - now apply IH.
Qed.

(** The keys of the join are the left keys that occur on the right, in
    the order of the left table. *)
Lemma merged_keys_filter left right :
  NoDup (map fst right) ->
  map merged_key (merge_inner left right) =
    filter (fun k => existsb (eqb_key k) (map fst right)) (map fst left).
Proof.
  intros N. unfold merge_inner.
  induction left as [|[k a] left IH]; simpl; [reflexivity|].
  rewrite map_app, IH, map_map. unfold merged_key at 1; simpl.
  rewrite <- (map_map fst (fun _ : K => k)).
  rewrite (@partners_NoDup right k N).
  now destruct (existsb (eqb_key k) (map fst right)).
Qed.

Lemma merged_keys_NoDup left right :
  NoDup (map fst left) -> NoDup (map fst right) ->
  NoDup (map merged_key (merge_inner left right)).
Proof.
  intros Nl Nr. rewrite merged_keys_filter by assumption.
  now apply NoDup_filter.
Qed.
End MergeFacts.

(** ** [take] and [sort_values] *)

Section TakeFacts.
Context {A : Type}.
Implicit Types (rows : list A) (idx : list nat).

Lemma take_app rows idx1 idx2 :
  take rows (idx1 ++ idx2) = take rows idx1 ++ take rows idx2.
Proof. apply flat_map_app. Qed.

Lemma take_one rows i :
  take rows [i] = match nth_error rows i with Some r => [r] | None => [] end.
Proof. unfold take; simpl. apply app_nil_r. Qed.

Lemma take_cons rows i idx :
  take rows (i :: idx) =
    match nth_error rows i with Some r => [r] | None => [] end ++ take rows idx.
Proof. reflexivity. Qed.

Lemma take_rev rows idx : take rows (rev idx) = rev (take rows idx).
Proof.
  induction idx as [|i idx IH]; [reflexivity|].
  cbn [rev]. rewrite take_app, IH, take_one, take_cons, rev_app_distr.
  now destruct (nth_error rows i).
Qed.

Lemma take_shift a rows idx : take (a :: rows) (map S idx) = take rows idx.
Proof.
  induction idx as [|i idx IH]; [reflexivity|].
  cbn [map]. rewrite !take_cons. cbn [nth_error]. now rewrite IH.
Qed.

Lemma take_all rows : take rows (seq 0 (List.length rows)) = rows.
Proof.
  induction rows as [|a rows IH]; [reflexivity|].
  cbn [List.length seq]. rewrite take_cons. cbn [nth_error app].
  rewrite <- seq_shift, take_shift. now f_equal.
Qed.

Lemma take_Permutation rows idx :
  Permutation idx (seq 0 (List.length rows)) -> Permutation (take rows idx) rows.
Proof.
  intros P. rewrite <- (take_all rows) at 2.
  unfold take. now apply Permutation_flat_map.
Qed.

Lemma nth_error_take rows idx o :
  Forall (fun i => (i < List.length rows)%nat) idx ->
  nth_error (take rows idx) o =
    match nth_error idx o with
    | Some i => nth_error rows i
    | None => None
    end.
Proof.
  intros F. revert o. induction F as [|i idx Hi _ IH]; intros o.
  - now destruct o.
  - rewrite take_cons. apply nth_error_Some in Hi.
    destruct (nth_error rows i) as [r|] eqn:E; [|congruence].
    destruct o as [|o]; simpl; [now rewrite E | apply IH].
Qed.

End TakeFacts.

Lemma take_map {A B} (f : A -> B) (rows : list A) (idx : list nat) :
  map f (take rows idx) = take (map f rows) idx.
Proof.
  induction idx as [|i idx IH]; [reflexivity|].
  rewrite !take_cons, map_app, IH, nth_error_map.
  now destruct (nth_error rows i).
Qed.

Lemma take_take {A} (rows : list A) (idx out : list nat) :
  Forall (fun i => (i < List.length rows)%nat) idx ->
  take rows (take idx out) = take (take rows idx) out.
Proof.
  intros F. induction out as [|o out IH]; [reflexivity|].
  rewrite !take_cons, take_app, IH. f_equal.
  rewrite (@nth_error_take _ rows idx o F).
  destruct (nth_error idx o) as [i|]; [|reflexivity].
  apply take_one.
Qed.

Lemma take_reversed {A} (rows : list A) :
  take rows (rev (seq 0 (List.length rows))) = rev rows.
Proof. now rewrite take_rev, take_all. Qed.

Lemma argsort_ok_Permutation argsort items :
  argsort_ok argsort items = true ->
  Permutation (argsort items) (seq 0 (List.length items)).
Proof.
  unfold argsort_ok. rewrite !andb_true_iff. intros [[L I] _].
  apply Nat.eqb_eq in L. symmetry.
  apply NoDup_Permutation_bis.
  - apply seq_NoDup.
  - rewrite length_seq. lia.
  - intros i Hi. rewrite forallb_forall in I. specialize (I i Hi).
    apply existsb_exists in I as (j & Hj & E). apply Nat.eqb_eq in E. now subst.
Qed.

Lemma nondecreasing_sorted (l : list Z) :
  nondecreasing l = true -> StronglySorted Z.le l.
Proof.
  intros H. apply Sorted_StronglySorted; [exact Z.le_trans|].
  revert H. induction l as [|x l IH]; intros H; [constructor|].
  destruct l as [|y l]; [repeat constructor|].
  simpl in H. apply andb_true_iff in H as [Hxy H].
  constructor; [now apply IH | constructor; now apply Z.leb_le].
Qed.

Lemma StronglySorted_snoc {A} (R : A -> A -> Prop) (l : list A) (a : A) :
  StronglySorted R l -> Forall (fun x => R x a) l -> StronglySorted R (l ++ [a]).
Proof.
  induction 1 as [|x l S IH Hx]; simpl; intros F.
  - repeat constructor.
  - inversion F; subst. constructor; [auto|].
    apply Forall_app. split; [assumption | now constructor].
Qed.

Lemma StronglySorted_rev {A} (R : A -> A -> Prop) (l : list A) :
  StronglySorted R l -> StronglySorted (fun x y => R y x) (rev l).
Proof.
  induction 1 as [|x l S IH Hx]; simpl; [constructor|].
  apply StronglySorted_snoc; [assumption|]. now apply Forall_rev.
Qed.

Section SortFacts.
Variable argsort : list Z -> list nat.

Lemma nargsort_desc_Permutation items :
  argsort_ok argsort (rev items) = true ->
  Permutation (nargsort_desc argsort items) (seq 0 (List.length items)).
Proof.
  intros Hok. apply argsort_ok_Permutation in Hok. rewrite length_rev in Hok.
  unfold nargsort_desc.
  eapply Permutation_trans; [symmetry; apply Permutation_rev|].
  eapply Permutation_trans; [|symmetry; apply Permutation_rev].
  apply take_Permutation. now rewrite length_rev, length_seq.
Qed.

(** Read in the order [nargsort_desc] returns, the values are those of
    the ascending order of the reversed array, reversed. *)
Lemma take_nargsort_desc items :
  take items (nargsort_desc argsort items) =
    rev (take (rev items) (argsort (rev items))).
Proof.
  unfold nargsort_desc. rewrite take_rev. f_equal.
  rewrite take_take, take_reversed; [reflexivity|].
  apply Forall_rev, Forall_forall. intros i Hi. apply in_seq in Hi. lia.
Qed.

Lemma sort_values_desc_Permutation {A} (by_ : A -> Z) (rows : list A) :
  argsort_ok argsort (rev (map by_ rows)) = true ->
  Permutation (sort_values_desc argsort by_ rows) rows.
Proof.
  intros Hok. apply take_Permutation.
  rewrite <- (length_map by_). now apply nargsort_desc_Permutation.
Qed.

Lemma sort_values_desc_sorted {A} (by_ : A -> Z) (rows : list A) :
  argsort_ok argsort (rev (map by_ rows)) = true ->
  StronglySorted (fun a b => by_ b <= by_ a) (sort_values_desc argsort by_ rows).
Proof.
  intros Hok.
  assert (S : StronglySorted (fun x y => y <= x)
                (map by_ (sort_values_desc argsort by_ rows))).
  { unfold sort_values_desc. rewrite take_map, take_nargsort_desc.
    apply StronglySorted_rev, nondecreasing_sorted.
    unfold argsort_ok in Hok. apply andb_true_iff in Hok. tauto. }
  revert S. generalize (sort_values_desc argsort by_ rows).
  induction l as [|a l IH]; simpl; intros S; [constructor|].
  inversion S as [|? ? S' F]; subst. constructor; [auto|].
  now rewrite Forall_map in F.
Qed.
End SortFacts.

(** The stable sort meets the contract of [argsort] on the arrays of the
    examples. *)
Example stable_argsort_ok : argsort_ok stable_argsort [3; 1; 2; 1] = true.
Proof. reflexivity. Qed.

(** ** [to_datetime] with the format [%Y%m%d] *)

Lemma is_digit_cases (c : ascii) : is_digit c = true -> In c digits.
Proof.
  unfold is_digit. rewrite andb_true_iff, !N.leb_le. intros [Hlo Hhi].
  rewrite <- (ascii_N_embedding c).
  assert (E : exists k, (k < 10)%nat /\ N_of_ascii c = (48 + N.of_nat k)%N).
  { exists (N.to_nat (N_of_ascii c - 48)). split; lia. }
  destruct E as (k & Hk & ->).
  do 10 (destruct k as [|k]; [simpl; tauto|]). lia.
Qed.

Lemma reads_month_day_all :
  forallb (fun e => forallb (fun f => forallb (fun g => forallb (fun h =>
    reads_month_day e f g h) digits) digits) digits) digits = true.
Proof. vm_compute. reflexivity. Qed.

Lemma match_md_digits (e f g h : ascii) :
  is_digit e = true -> is_digit f = true ->
  is_digit g = true -> is_digit h = true ->
  1 <= 10 * digit e + digit f <= 12 ->
  1 <= 10 * digit g + digit h <= 31 ->
  match_md [e; f; g; h] =
    Some ((10 * digit e + digit f, 10 * digit g + digit h), []).
Proof.
  intros He Hf Hg Hh Hm Hd.
  pose proof reads_month_day_all as All.
  rewrite forallb_forall in All.
  specialize (All e (is_digit_cases e He)). rewrite forallb_forall in All.
  specialize (All f (is_digit_cases f Hf)). rewrite forallb_forall in All.
  specialize (All g (is_digit_cases g Hg)). rewrite forallb_forall in All.
  specialize (All h (is_digit_cases h Hh)).
  unfold reads_month_day in All.
  replace ((1 <=? 10 * digit e + digit f) && (10 * digit e + digit f <=? 12)
           && (1 <=? 10 * digit g + digit h) && (10 * digit g + digit h <=? 31))
    with true in All
    by (symmetry; rewrite !andb_true_iff, !Z.leb_le; lia).
  destruct (match_md [e; f; g; h]) as [[[m' d'] [|]]|]; try discriminate.
  apply andb_true_iff in All as [Em Ed].
  apply Z.eqb_eq in Em, Ed. now subst.
Qed.

Lemma days_in_month_le_31 (y m : Z) : days_in_month y m <= 31.
Proof.
  unfold days_in_month. destruct m as [|p|p]; try lia.
  do 5 (try destruct p as [p|p|]; try lia; try (destruct (is_leap y); lia)).
Qed.

(** A valid 8-digit date inside the range is read as the date its digits
    spell. *)
Lemma strptime_Ymd_digits (s : string) (d : Date) :
  yyyymmdd s = Some d -> valid_date d = true -> in_bounds d = true ->
  strptime_Ymd s = Ok (midnight d).
Proof.
  unfold yyyymmdd, strptime_Ymd.
  destruct (list_ascii_of_string s)
    as [|a [|b [|c [|d0 [|e [|f [|g [|h [|]]]]]]]]]; try discriminate.
  destruct (forallb is_digit [a; b; c; d0; e; f; g; h]) eqn:D; [|discriminate].
  intros [= <-] V B.
  simpl in D. rewrite !andb_true_iff in D.
  destruct D as (Ha & Hb & Hc & Hd & He & Hf & Hg & Hh & _).
  unfold regex_match, match_Y. rewrite Ha, Hb, Hc, Hd. cbn [andb].
  pose proof V as V'. unfold valid_date, date_of_digits in V'.
  cbn [d_year d_month d_day] in V'.
  rewrite !andb_true_iff, !Z.leb_le in V'.
  pose proof (days_in_month_le_31
                (1000 * digit a + 100 * digit b + 10 * digit c + digit d0)
                (10 * digit e + digit f)).
  rewrite match_md_digits by (assumption || lia). cbn [fst snd].
  change {| d_year := 1000 * digit a + 100 * digit b + 10 * digit c + digit d0;
            d_month := 10 * digit e + digit f;
            d_day := 10 * digit g + digit h |}
    with (date_of_digits a b c d0 e f g h).
  now rewrite V, B.
Qed.

Lemma string_of_chars (s : string) (l : list ascii) :
  list_ascii_of_string s = l -> s = string_of_list_ascii l.
Proof. intros <-. now rewrite string_of_list_ascii_of_string. Qed.

Lemma yyyymmdd_not_special (s : string) (d : Date) :
  yyyymmdd s = Some d ->
  (String.eqb s "" || existsb (String.eqb s) nat_strings = false)
  /\ (String.eqb s "now" || String.eqb s "today" = false).
Proof.
  unfold yyyymmdd.
  destruct (list_ascii_of_string s)
    as [|a [|b [|c [|d0 [|e [|f [|g [|h [|]]]]]]]]] eqn:E; try discriminate.
  intros _. apply string_of_chars in E. subst s. cbn.
  split;
    repeat match goal with
           | |- context [Ascii.eqb ?x ?y] => destruct (Ascii.eqb x y)
           end; reflexivity.
Qed.

Lemma to_datetime_fine now (s : string) :
  date_text_fine s = true ->
  to_datetime_Ymd_1 now s =
    Ok (match yyyymmdd s with Some d => Some (midnight d) | None => None end).
Proof.
  unfold date_text_fine, to_datetime_Ymd_1.
  destruct (yyyymmdd s) as [d|] eqn:E.
  - rewrite andb_true_iff. intros [V B].
    destruct (yyyymmdd_not_special s E) as [-> ->].
    now rewrite (strptime_Ymd_digits s E V B).
  - intros Hs. apply String.eqb_eq in Hs. now subst s.
Qed.

(** ** What the parser accepts *)

Lemma full_match_spells_all :
  forallb (fun e => forallb (fun f => forallb (fun g => forallb (fun h =>
    full_match_spells e f g h) digits) digits) digits) digits = true.
Proof. vm_compute. reflexivity. Qed.

(** Eight digits are read as the date they spell, or not at all. *)
Lemma strptime_Ymd_eight (s : string) (d : Date) (t : Timestamp) :
  yyyymmdd s = Some d -> strptime_Ymd s = Ok t ->
  valid_date d && in_bounds d = true /\ t = midnight d.
Proof.
  unfold yyyymmdd, strptime_Ymd.
  destruct (list_ascii_of_string s)
    as [|a [|b [|c [|d0 [|e [|f [|g [|h [|]]]]]]]]]; try discriminate.
  destruct (forallb is_digit [a; b; c; d0; e; f; g; h]) eqn:D; [|discriminate].
  intros [= <-].
  simpl in D. rewrite !andb_true_iff in D.
  destruct D as (Ha & Hb & Hc & Hd & He & Hf & Hg & Hh & _).
  unfold regex_match, match_Y. rewrite Ha, Hb, Hc, Hd. cbn [andb].
  pose proof full_match_spells_all as All.
  rewrite forallb_forall in All.
  specialize (All e (is_digit_cases e He)). rewrite forallb_forall in All.
  specialize (All f (is_digit_cases f Hf)). rewrite forallb_forall in All.
  specialize (All g (is_digit_cases g Hg)). rewrite forallb_forall in All.
  specialize (All h (is_digit_cases h Hh)).
  unfold full_match_spells in All.
  destruct (match_md [e; f; g; h]) as [[[m' d'] [|x rest]]|];
    try discriminate.
  apply andb_true_iff in All as [Em Ed].
  apply Z.eqb_eq in Em, Ed. subst m' d'. cbn [fst snd].
  change {| d_year := 1000 * digit a + 100 * digit b + 10 * digit c + digit d0;
            d_month := 10 * digit e + digit f;
            d_day := 10 * digit g + digit h |}
    with (date_of_digits a b c d0 e f g h).
  destruct (valid_date (date_of_digits a b c d0 e f g h)); [|discriminate].
  destruct (in_bounds (date_of_digits a b c d0 e f g h)); [|discriminate].
  cbn [negb andb]. intros [= <-]. split; reflexivity.
Qed.

Lemma in_range_digit (l h a : ascii) :
  is_digit l = true -> is_digit h = true -> in_range l h a = true ->
  is_digit a = true.
Proof.
  unfold is_digit, in_range. rewrite !andb_true_iff, !N.leb_le. lia.
Qed.

Lemma alt2_shape (l1 h1 l2 h2 : ascii) (s : list ascii) (v : Z) (rest : list ascii) :
  is_digit l1 = true -> is_digit h1 = true ->
  is_digit l2 = true -> is_digit h2 = true ->
  In (v, rest) (alt2 l1 h1 l2 h2 s) ->
  exists a b, s = a :: b :: rest /\ is_digit a = true /\ is_digit b = true.
Proof.
  intros D1 D2 D3 D4. unfold alt2.
  destruct s as [|a [|b s']]; try (intros []).
  destruct (in_range l1 h1 a && in_range l2 h2 b) eqn:E; [|intros []].
  apply andb_true_iff in E as [Ea Eb].
  intros [[= _ <-] | []]. exists a, b.
  split; [reflexivity|].
  split; [exact (@in_range_digit _ _ _ D1 D2 Ea)
         | exact (@in_range_digit _ _ _ D3 D4 Eb)].
Qed.

Lemma alt1_shape (l h : ascii) (s : list ascii) (v : Z) (rest : list ascii) :
  is_digit l = true -> is_digit h = true ->
  In (v, rest) (alt1 l h s) ->
  exists a, s = a :: rest /\ is_digit a = true.
Proof.
  intros D1 D2. unfold alt1. destruct s as [|a s']; [intros []|].
  destruct (in_range l h a) eqn:E; [|intros []].
  intros [[= _ <-] | []]. exists a. split; [reflexivity|].
  exact (@in_range_digit _ _ _ D1 D2 E).
Qed.

Lemma alt_space_shape (s : list ascii) (v : Z) (rest : list ascii) :
  In (v, rest) (alt_space s) ->
  exists b, s = " "%char :: b :: rest /\ is_digit b = true.
Proof.
  unfold alt_space. destruct s as [|a [|b s']]; try (intros []).
  destruct (Ascii.eqb a " " && in_range "1" "9" b) eqn:E; [|intros []].
  apply andb_true_iff in E as [Ea Eb]. apply Ascii.eqb_eq in Ea. subst a.
  intros [[= _ <-] | []]. exists b. split; [reflexivity|].
  apply (@in_range_digit "1" "9" b); [reflexivity | reflexivity | exact Eb].
Qed.

(** What a group of the regular expression consumes: one or two
    characters, digits or a space. *)
Lemma match_m_shape (s : list ascii) (v : Z) (rest : list ascii) :
  In (v, rest) (match_m s) ->
  exists pre, s = pre ++ rest /\ (1 <= List.length pre <= 2)%nat
              /\ Forall digit_or_space pre.
Proof.
  unfold match_m. rewrite !in_app_iff. intros [H | [H | H]].
  - apply alt2_shape in H as (a & b & -> & Ha & Hb); try reflexivity.
    exists [a; b]. repeat split; simpl; try lia.
    repeat (apply Forall_cons; [now left|]); apply Forall_nil.
  - apply alt2_shape in H as (a & b & -> & Ha & Hb); try reflexivity.
    exists [a; b]. repeat split; simpl; try lia.
    repeat (apply Forall_cons; [now left|]); apply Forall_nil.
  - apply alt1_shape in H as (a & -> & Ha); try reflexivity.
    exists [a]. repeat split; simpl; try lia.
    repeat (apply Forall_cons; [now left|]); apply Forall_nil.
Qed.

Lemma match_d_shape (s : list ascii) (v : Z) (rest : list ascii) :
  In (v, rest) (match_d s) ->
  exists pre, s = pre ++ rest /\ (1 <= List.length pre <= 2)%nat
              /\ Forall digit_or_space pre.
Proof.
  unfold match_d. rewrite !in_app_iff. intros [H | [H | [H | [H | H]]]].
  - apply alt2_shape in H as (a & b & -> & Ha & Hb); try reflexivity.
    exists [a; b]. repeat split; simpl; try lia.
    repeat (apply Forall_cons; [now left|]); apply Forall_nil.
  - apply alt2_shape in H as (a & b & -> & Ha & Hb); try reflexivity.
    exists [a; b]. repeat split; simpl; try lia.
    repeat (apply Forall_cons; [now left|]); apply Forall_nil.
  - apply alt2_shape in H as (a & b & -> & Ha & Hb); try reflexivity.
    exists [a; b]. repeat split; simpl; try lia.
    repeat (apply Forall_cons; [now left|]); apply Forall_nil.
  - apply alt1_shape in H as (a & -> & Ha); try reflexivity.
    exists [a]. repeat split; simpl; try lia.
    repeat (apply Forall_cons; [now left|]); apply Forall_nil.
  - apply alt_space_shape in H as (b & -> & Hb).
    exists [" "%char; b]. repeat split; simpl; try lia.
    apply Forall_cons; [now right|].
    apply Forall_cons; [now left | apply Forall_nil].
Qed.

Lemma hd_error_In {A} (l : list A) (x : A) : hd_error l = Some x -> In x l.
Proof. destruct l; simpl; [discriminate | intros [= ->]; now left]. Qed.

Lemma match_md_shape (s : list ascii) (md : Z * Z) (rest : list ascii) :
  match_md s = Some (md, rest) ->
  exists pre, s = pre ++ rest /\ (2 <= List.length pre <= 4)%nat
              /\ Forall digit_or_space pre.
Proof.
  unfold match_md. intros H. apply hd_error_In in H.
  apply in_flat_map in H as ([m s1] & Hm & Hd). cbn [fst snd] in Hd.
  destruct (match_d s1) as [|[d s2] ds] eqn:Ed; [destruct Hd|].
  destruct Hd as [[= _ <-] | []].
  apply match_m_shape in Hm as (p1 & -> & L1 & F1).
  assert (Hd : In (d, s2) (match_d s1)) by (rewrite Ed; now left).
  apply match_d_shape in Hd as (p2 & -> & L2 & F2).
  exists (p1 ++ p2). rewrite <- app_assoc. split; [reflexivity|].
  rewrite length_app. split; [lia|]. apply Forall_app. now split.
Qed.

Lemma regex_match_shape (s : list ascii) (d : Date) (rest : list ascii) :
  regex_match s = Some (d, rest) ->
  exists pre, s = pre ++ rest /\ (6 <= List.length pre <= 8)%nat
              /\ Forall digit_or_space pre.
Proof.
  unfold regex_match, match_Y.
  destruct s as [|a [|b [|c [|d0 s1]]]]; try discriminate.
  destruct (is_digit a && is_digit b && is_digit c && is_digit d0) eqn:E;
    [|discriminate].
  rewrite !andb_true_iff in E. destruct E as [[[Ha Hb] Hc] Hd].
  destruct (match_md s1) as [[md s2]|] eqn:Em; [|discriminate].
  intros [= _ <-].
  apply match_md_shape in Em as (p & -> & L & F).
  exists (a :: b :: c :: d0 :: p). split; [reflexivity|].
  split; [simpl; lia|].
  repeat (apply Forall_cons; [now left|]). exact F.
Qed.

Lemma length_list_ascii (s : string) :
  List.length (list_ascii_of_string s) = String.length s.
Proof. induction s as [|c s IH]; simpl; [reflexivity | now rewrite IH]. Qed.

Lemma list_ascii_app (s1 s2 : string) :
  list_ascii_of_string (s1 ++ s2)
  = list_ascii_of_string s1 ++ list_ascii_of_string s2.
Proof. induction s1 as [|c s1 IH]; simpl; [reflexivity | now rewrite IH]. Qed.

(** A text the parser accepts is one of the special texts, or six to eight
    characters, each a digit or a space. *)
Lemma accepted_shape now (s : string) (x : option Timestamp) :
  to_datetime_Ymd_1 now s = Ok x ->
  In s special_texts
  \/ ((6 <= String.length s <= 8)%nat
      /\ Forall digit_or_space (list_ascii_of_string s)).
Proof.
  unfold to_datetime_Ymd_1, special_texts.
  destruct (String.eqb s "" || existsb (String.eqb s) nat_strings) eqn:E1.
  { intros _. left. apply orb_true_iff in E1 as [E | E].
    - apply String.eqb_eq in E. now left.
    - apply existsb_exists in E as (n & Hn & E).
      apply String.eqb_eq in E. subst n. now do 3 right. }
  destruct (String.eqb s "now" || String.eqb s "today") eqn:E2.
  { intros _. left. apply orb_true_iff in E2 as [E | E];
      apply String.eqb_eq in E; subst s; simpl; auto. }
  unfold strptime_Ymd.
  destruct (regex_match (list_ascii_of_string s)) as [[d rest]|] eqn:R;
    [|discriminate].
  destruct rest as [|c rest]; [|discriminate].
  intros _. right. apply regex_match_shape in R as (pre & E & L & F).
  rewrite app_nil_r in E. rewrite <- length_list_ascii, E. now split.
Qed.

(** No text with a decimal point is accepted. *)
Lemma dotted_text_rejected now (s : string) :
  In "."%char (list_ascii_of_string s) ->
  exists e, to_datetime_Ymd_1 now s = Raise e.
Proof.
  intros Dot. destruct (to_datetime_Ymd_1 now s) as [x|e] eqn:E; [|eauto].
  exfalso. apply accepted_shape in E as [Sp | [_ F]].
  - unfold special_texts, nat_strings in Sp. simpl in Sp.
    repeat destruct Sp as [<- | Sp]; simpl in Dot;
      repeat destruct Dot as [Dot | Dot]; try discriminate Dot; auto.
  - rewrite Forall_forall in F. destruct (F _ Dot) as [D | D]; discriminate D.
Qed.

Lemma float_str_rejected now (z : Z) :
  exists e, to_datetime_Ymd_1 now (float_str z) = Raise e.
Proof.
  apply dotted_text_rejected. unfold float_str. rewrite list_ascii_app.
  apply in_or_app. right. now left.
Qed.

(** When the parser accepts the text of a cell, the dtype of the column
    did not matter to it. *)
Lemma accepted_cell_text now (t : dtype) (c : Cell) (x : option Timestamp) :
  to_datetime_Ymd_1 now (astype_str_as t c) = Ok x ->
  astype_str_as t c = astype_str c.
Proof.
  destruct t, c; try reflexivity. cbn [astype_str_as]. intros E.
  destruct (float_str_rejected now z) as [e E']. congruence.
Qed.

(** Eight digits that do not name a day of the range are rejected. *)
Lemma eight_digits_rejected now (s : string) (d : Date) :
  yyyymmdd s = Some d -> valid_date d && in_bounds d = false ->
  exists e, to_datetime_Ymd_1 now s = Raise e.
Proof.
  intros E Bad. unfold to_datetime_Ymd_1.
  destruct (yyyymmdd_not_special s E) as [-> ->].
  destruct (strptime_Ymd s) as [t|e] eqn:P; [|simpl; eauto].
  apply (strptime_Ymd_eight s E) in P as [Good _]. congruence.
Qed.

(** ** [preprocess_fire] *)

Section FireFacts.
Variable now : Timestamp.
Variable argsort : list Z -> list nat.

Lemma preprocess_fire_Ok fire seoul monthly cause region :
  preprocess_fire now argsort fire = Ok (seoul, monthly, cause, region) ->
  exists days,
    to_datetime_Ymd now (map (date_text_in fire) (filter_region fire)) = Ok days
    /\ seoul = map (fun p => derive_fire (fst p) (snd p))
                   (combine (filter_region fire) days)
    /\ monthly = count_by Fire.연도_월 seoul
    /\ cause = ranking argsort cause_key seoul
    /\ region = ranking argsort sub_region_key seoul.
Proof.
  unfold preprocess_fire.
  change (fun r => astype_str_as (column_dtype (map Fire.OCRN_YMD fire))
                                 (Fire.OCRN_YMD r))
    with (date_text_in fire).
  destruct (to_datetime_Ymd now (map (date_text_in fire) (filter_region fire)))
    as [days|e]; simpl; [|discriminate].
  intros [= <- <- <- <-]. exists days. repeat split.
Qed.

Lemma preprocess_fire_raises fire :
  (exists e, preprocess_fire now argsort fire = Raise e) <->
  (exists e, to_datetime_Ymd now (map (date_text_in fire) (filter_region fire))
             = Raise e).
Proof.
  unfold preprocess_fire.
  change (fun r => astype_str_as (column_dtype (map Fire.OCRN_YMD fire))
                                 (Fire.OCRN_YMD r))
    with (date_text_in fire).
  destruct (to_datetime_Ymd now (map (date_text_in fire) (filter_region fire)));
    simpl; split; intros [e' E]; try discriminate; eauto.
Qed.

(** Row by row, the derived table is the filtered table. *)
Lemma seoul_rows fire seoul monthly cause region :
  preprocess_fire now argsort fire = Ok (seoul, monthly, cause, region) ->
  map Fire.raw seoul = filter_region fire
  /\ Forall (fun r =>
               Fire.연도 r = Fire.OCRN_YR (Fire.raw r)
               /\ Fire.월 r = Fire.OCRN_MM (Fire.raw r)
               /\ to_datetime_Ymd_1 now (fire_date_text (Fire.raw r))
                  = Ok (Fire.발생일 r)) seoul.
Proof.
  intros E. apply preprocess_fire_Ok in E as (days & Ed & -> & _).
  unfold to_datetime_Ymd in Ed. apply mapM_Forall2 in Ed.
  remember (filter_region fire) as rows eqn:Er. clear Er.
  revert days Ed. induction rows as [|r rows IH]; intros days Ed.
  - inversion Ed; subst. split; constructor.
  - simpl in Ed. inversion Ed as [|? t ? days' Et Ed']; subst.
    destruct (IH _ Ed') as [IH1 IH2]. simpl. split; [now f_equal|].
    constructor; [|assumption]. simpl. repeat split.
    unfold fire_date_text. unfold date_text_in in Et.
    now rewrite <- (accepted_cell_text _ _ _ Et).
Qed.
End FireFacts.

Lemma filter_idempotent {A} (f : A -> bool) (l : list A) :
  filter f (filter f l) = filter f l.
Proof.
  induction l as [|a l IH]; simpl; [reflexivity|].
  destruct (f a) eqn:E; simpl; rewrite ?E, IH; reflexivity.
Qed.

Lemma count_sum_size {K R} (gs : list (K * list R)) :
  count_sum (size gs) = Z.of_nat (group_total gs).
Proof.
  unfold count_sum, size, group_total.
  induction gs as [|g gs IH]; simpl; [reflexivity|].
  rewrite IH. lia.
Qed.

(* ================================================================== *)
(** * The claims *)

(** C9. Region filtering is idempotent: filtering a table by the target
    region and filtering the result again by the same region gives the
    once-filtered table, row for row; so does the station filter of the
    weather table. *)
Theorem region_filter_idempotent :
  (forall fire : list Fire.Raw,
      filter_region (filter_region fire) = filter_region fire)
  /\ (forall weather : list Weather.Raw,
         filter_station (filter_station weather) = filter_station weather).
Proof. split; intros; apply filter_idempotent. Qed.

Lemma filter_all {A} (f : A -> bool) (l : list A) :
  (forall a, In a l -> f a = true) -> filter f l = l.
Proof.
  induction l as [|a l IH]; simpl; intros H; [reflexivity|].
  rewrite (H a) by now left. f_equal. apply IH. intros b Hb. apply H. now right.
Qed.

Lemma filter_none {A} (f : A -> bool) (l : list A) :
  (forall a, In a l -> f a = false) -> filter f l = [].
Proof.
  induction l as [|a l IH]; simpl; intros H; [reflexivity|].
  rewrite (H a) by now left. apply IH. intros b Hb. apply H. now right.
Qed.

Lemma cell_is_true (v : string) (c : option string) :
  cell_is v c = true <-> c = Some v.
Proof.
  destruct c as [s|]; simpl; [|split; discriminate].
  rewrite String.eqb_eq. split; congruence.
Qed.

Lemma take_nil {A} (idx : list nat) : take (@nil A) idx = [].
Proof.
  induction idx as [|i idx IH]; [reflexivity|].
  rewrite take_cons, IH. now destruct i.
Qed.

Lemma ranking_nil argsort (key : Fire.Row -> option string) :
  ranking argsort key [] = [].
Proof. unfold ranking, sort_values_desc. apply take_nil. Qed.

(** C3 (amended). The counts of the monthly incident summary sum to the
    number of rows of the region-filtered table whose year and month are
    both present: a row with a missing year or month belongs to no group
    ([groupby] drops missing keys).  The derived table has as many rows as
    the filtered table, so when no filtered row lacks its year or month
    the counts sum to the size of the filtered table. *)
Theorem monthly_counts_total now argsort fire seoul monthly cause region :
  preprocess_fire now argsort fire = Ok (seoul, monthly, cause, region) ->
  List.length seoul = List.length (filter_region fire)
  /\ count_sum monthly
     = Z.of_nat (List.length (filter (keyed Fire.연도_월) seoul))
  /\ ((forall r, In r seoul -> Fire.연도 r <> None /\ Fire.월 r <> None) ->
      count_sum monthly = Z.of_nat (List.length (filter_region fire))).
Proof.
  intros E. pose proof (seoul_rows _ _ _ E) as [Hraw _].
  assert (L : List.length seoul = List.length (filter_region fire))
    by now rewrite <- Hraw, length_map.
  apply preprocess_fire_Ok in E as (days & _ & _ & -> & _).
  assert (S : count_sum (count_by Fire.연도_월 seoul)
              = Z.of_nat (List.length (filter (keyed Fire.연도_월) seoul))).
  { unfold count_by. now rewrite count_sum_size, groupby_total. }
  repeat split; [exact L | exact S |].
  intros Hall. rewrite S, <- L. do 2 f_equal. apply filter_all.
  intros r Hr. destruct (Hall r Hr) as [Hy Hm].
  unfold keyed, Fire.연도_월. now destruct (Fire.연도 r), (Fire.월 r).
Qed.

Lemma monthly_counts_total_scenario :
  exists (seoul : list Fire.Row) (monthly : list ((Z * Z) * Z)),
    List.length seoul = List.length (filter_region fire_scenario)
    /\ count_sum monthly
       = Z.of_nat (List.length (filter (keyed Fire.연도_월) seoul))
    /\ ((forall r, In r seoul -> Fire.연도 r <> None /\ Fire.월 r <> None) ->
        count_sum monthly = Z.of_nat (List.length (filter_region fire_scenario))).
Proof.
  eexists. eexists.
  eapply (@monthly_counts_total Sample.now stable_argsort fire_scenario).
  vm_compute. reflexivity.
Defined.

(** C3, as stated, fails: the region-filtered table of [fire_missing_year]
    has one row, and the monthly summary is empty, its counts summing
    to 0. *)
Lemma monthly_counts_miss_row :
  exists seoul cause region,
    preprocess_fire Sample.now stable_argsort fire_missing_year
    = Ok (seoul, [], cause, region)
    /\ List.length (filter_region fire_missing_year) = 1%nat
    /\ List.length seoul = 1%nat
    /\ count_sum (@nil ((Z * Z) * Z)) = 0.
Proof. do 3 eexists. repeat split. Qed.


(** An empty date cell in a row of another region makes the date column
    float64, and the valid date of the selected row is rejected; eight
    digits that spell the 30th of February are rejected. *)
Example empty_cell_elsewhere :
  column_dtype (map Fire.OCRN_YMD fire_empty_elsewhere) = float64
  /\ preprocess_fire Sample.now stable_argsort fire_empty_elsewhere
     = Raise ValueError
  /\ preprocess_fire Sample.now stable_argsort fire_february_30
     = Raise ValueError.
Proof. repeat split. Qed.


(** C5 (amended). In every row of the derived incident table the year and
    month fields are the row's [OCRN_YR] and [OCRN_MM] columns and the
    occurrence date is the parse of its [OCRN_YMD] column: three
    independent inputs.  The year (month) of the occurrence date equals
    the year (month) field exactly when the input row's [OCRN_YR]
    ([OCRN_MM]) column already holds it; nothing checks that. *)
Theorem derived_year_month now argsort fire seoul monthly cause region :
  preprocess_fire now argsort fire = Ok (seoul, monthly, cause, region) ->
  Forall
    (fun r =>
       Fire.연도 r = Fire.OCRN_YR (Fire.raw r)
       /\ Fire.월 r = Fire.OCRN_MM (Fire.raw r)
       /\ to_datetime_Ymd_1 now (fire_date_text (Fire.raw r)) = Ok (Fire.발생일 r)
       /\ forall t, Fire.발생일 r = Some t ->
            (Fire.연도 r = Some (d_year (ts_date t)) <->
             Fire.OCRN_YR (Fire.raw r) = Some (d_year (ts_date t)))
            /\ (Fire.월 r = Some (d_month (ts_date t)) <->
                Fire.OCRN_MM (Fire.raw r) = Some (d_month (ts_date t))))
    seoul.
Proof.
  intros E. apply seoul_rows in E as [_ F]. revert F. apply Forall_impl.
  intros r (Hy & Hm & Ht). repeat split; try assumption; congruence.
Qed.

Lemma derived_year_month_scenario :
  exists seoul,
    List.length seoul = 3%nat
    /\ Forall
         (fun r =>
            Fire.연도 r = Fire.OCRN_YR (Fire.raw r)
            /\ Fire.월 r = Fire.OCRN_MM (Fire.raw r)
            /\ to_datetime_Ymd_1 Sample.now (fire_date_text (Fire.raw r))
               = Ok (Fire.발생일 r)
            /\ forall t, Fire.발생일 r = Some t ->
                 (Fire.연도 r = Some (d_year (ts_date t)) <->
                  Fire.OCRN_YR (Fire.raw r) = Some (d_year (ts_date t)))
                 /\ (Fire.월 r = Some (d_month (ts_date t)) <->
                     Fire.OCRN_MM (Fire.raw r) = Some (d_month (ts_date t))))
         seoul.
Proof.
  eexists. split; cycle 1.
  - eapply (@derived_year_month Sample.now stable_argsort fire_scenario).
    vm_compute. reflexivity.
  - reflexivity.
Defined.

(** C5, as stated, fails: the row of [fire_inconsistent] is dated
    2024-01-01 and carries the year 2023 and the month 5. *)
Lemma year_month_not_checked :
  exists r monthly cause region,
    preprocess_fire Sample.now stable_argsort fire_inconsistent
    = Ok ([r], monthly, cause, region)
    /\ Fire.발생일 r = Some (midnight jan_1)
    /\ Fire.연도 r = Some 2023
    /\ Fire.월 r = Some 5.
Proof. do 4 eexists. repeat split. Qed.

(** C8. When no row of the incident table is of the target region,
    filtering and derivation return the empty table without raising, and
    every aggregation and join downstream of it is empty: the monthly,
    cause and sub-region summaries, the daily counts, and the monthly and
    daily joins with any weather summaries. *)
Theorem empty_region now argsort fire :
  (forall r, In r fire -> Fire.GRNDS_CTPV_NM r <> Some 서울특별시) ->
  preprocess_fire now argsort fire = Ok ([], [], [], [])
  /\ daily_fire [] = []
  /\ (forall W (daily_weather : list (Timestamp * W)),
         make_daily_merge [] daily_weather = [])
  /\ (forall W (monthly_weather : list ((Z * Z) * W)),
         merge_inner (@nil ((Z * Z) * Z)) monthly_weather = [])
  /\ (forall to_datetime weather T,
         main now argsort to_datetime fire weather = Ok T ->
         seoul_fire T = [] /\ monthly_fire T = [] /\ cause_fire T = []
         /\ region_fire T = [] /\ monthly_merge T = [] /\ daily_merge T = []).
Proof.
  intros None_.
  assert (F : filter_region fire = []).
  { apply filter_none. intros r Hr. specialize (None_ r Hr).
    destruct (cell_is 서울특별시 (Fire.GRNDS_CTPV_NM r)) eqn:E; [|reflexivity].
    apply cell_is_true in E. contradiction. }
  assert (P : preprocess_fire now argsort fire = Ok ([], [], [], [])).
  { unfold preprocess_fire. rewrite F.
    cbn [map to_datetime_Ymd mapM bind combine]. now rewrite !ranking_nil. }
  split; [exact P|]. split; [reflexivity|].
  split; [intros; reflexivity|]. split; [intros; reflexivity|].
  intros to_datetime weather T E. unfold main in E. rewrite P in E.
  simpl in E.
  destruct (preprocess_weather to_datetime weather) as [[[w m] d]|];
    simpl in E; [|discriminate].
  inversion E. simpl. repeat split; reflexivity.
Qed.

Lemma empty_region_elsewhere :
  preprocess_fire Sample.now stable_argsort fire_elsewhere = Ok ([], [], [], [])
  /\ make_daily_merge [] (@nil (Timestamp * Weather.Summary)) = [].
Proof.
  assert (H : forall r, In r fire_elsewhere ->
                        Fire.GRNDS_CTPV_NM r <> Some 서울특별시).
  { intros r [<- | []]. vm_compute. discriminate. }
  destruct (@empty_region Sample.now stable_argsort fire_elsewhere H)
    as (P & _ & D & _).
  split; [exact P | apply D].
Defined.

(** ** The ranking summaries *)

Section CountFacts.
Context {R : Type}.
Variable key : R -> option string.

Lemma count_by_groups (rows : list R) :
  key_sorted (size (groupby key rows)).
Proof.
  unfold size. apply key_sorted_map; [reflexivity | apply groupby_sorted].
Qed.

(** One row per key that occurs, with the number of its rows. *)
Lemma In_size_groupby (rows : list R) (k : string) (c : Z) :
  In (k, c) (size (groupby key rows)) <->
  c = Z.of_nat (List.length (rows_with key k rows)) /\ 0 < c.
Proof.
  rewrite (In_lookup _ _ (count_by_groups rows)).
  unfold size.
  rewrite (lookup_map (fun rs : list R => Z.of_nat (List.length rs))).
  rewrite lookup_groupby.
  destruct (rows_with key k rows) as [|r rs]; simpl.
  - split; [discriminate | lia].
  - split; [intros [= <-]; lia | intros [-> _]; reflexivity].
Qed.
End CountFacts.

Lemma argsort_ok_two argsort :
  argsort_ok argsort [1; 1] = true ->
  argsort [1; 1] = [0; 1]%nat \/ argsort [1; 1] = [1; 0]%nat.
Proof.
  unfold argsort_ok. destruct (argsort [1; 1]) as [|i [|j [|]]]; try discriminate.
  destruct i as [|[|]], j as [|[|]]; simpl; try discriminate; auto.
Qed.

Lemma sort_two_kept argsort (a b : string * Z) :
  snd a = 1 -> snd b = 1 -> argsort [1; 1] = [0; 1]%nat ->
  sort_values_desc argsort snd [a; b] = [a; b].
Proof.
  intros Ha Hb Hs. unfold sort_values_desc, nargsort_desc.
  cbn [map rev app List.length seq]. rewrite Ha, Hb, Hs. reflexivity.
Qed.

Lemma sort_two_swapped argsort (a b : string * Z) :
  snd a = 1 -> snd b = 1 -> argsort [1; 1] = [1; 0]%nat ->
  sort_values_desc argsort snd [a; b] = [b; a].
Proof.
  intros Ha Hb Hs. unfold sort_values_desc, nargsort_desc.
  cbn [map rev app List.length seq]. rewrite Ha, Hb, Hs. reflexivity.
Qed.

(** Whatever the sort, the two tables [fire_ba] and [fire_ab] reach it as
    the same groups, in key order. *)
Lemma preprocess_fire_ba argsort :
  exists seoul monthly region,
    preprocess_fire Sample.now argsort fire_ba
    = Ok (seoul, monthly,
          sort_values_desc argsort snd [("a", 1); ("b", 1)]%string, region)
    /\ first_seen cause_key "a" seoul = 1%nat
    /\ first_seen cause_key "b" seoul = 0%nat.
Proof. do 3 eexists. split; [vm_compute; reflexivity|]. split; reflexivity. Qed.

Lemma preprocess_fire_ab argsort :
  exists seoul monthly region,
    preprocess_fire Sample.now argsort fire_ab
    = Ok (seoul, monthly,
          sort_values_desc argsort snd [("a", 1); ("b", 1)]%string, region)
    /\ first_seen cause_key "a" seoul = 0%nat
    /\ first_seen cause_key "b" seoul = 1%nat.
Proof. do 3 eexists. split; [vm_compute; reflexivity|]. split; reflexivity. Qed.

Lemma ties_of_two {R} (key : R -> option string) (rows : list R)
      (a b : string * Z) :
  ties_by_first_seen key rows [a; b] -> snd a = snd b ->
  (first_seen key (fst a) rows < first_seen key (fst b) rows)%nat.
Proof.
  intros S E. inversion S as [|? ? _ F]; subst.
  inversion F; subst. auto.
Qed.

(** C6 (amended). Given that [argsort] returns a sorting permutation of
    the group counts, the cause summary and the sub-region summary are
    sorted descending by count and hold one row per key that occurs, with
    the number of its rows.  The groups reach the sort in ascending key
    order, not in the order the keys are first met, and the order among
    equal counts is whatever the sort returns. *)
Theorem ranking_descending now argsort fire seoul monthly cause region :
  preprocess_fire now argsort fire = Ok (seoul, monthly, cause, region) ->
  argsort_ok argsort (rev (map snd (count_by cause_key seoul))) = true ->
  argsort_ok argsort (rev (map snd (count_by sub_region_key seoul))) = true ->
  (count_descending cause
   /\ Permutation cause (count_by cause_key seoul)
   /\ forall k c, In (k, c) cause <->
        c = Z.of_nat (List.length (rows_with cause_key k seoul)) /\ 0 < c)
  /\ (count_descending region
      /\ Permutation region (count_by sub_region_key seoul)
      /\ forall k c, In (k, c) region <->
           c = Z.of_nat (List.length (rows_with sub_region_key k seoul)) /\ 0 < c)
  /\ key_sorted (count_by cause_key seoul)
  /\ key_sorted (count_by sub_region_key seoul).
Proof.
  intros E Hc Hr. apply preprocess_fire_Ok in E as (days & _ & _ & _ & -> & ->).
  assert (Rank : forall key,
             argsort_ok argsort (rev (map snd (count_by key seoul))) = true ->
             count_descending (ranking argsort key seoul)
             /\ Permutation (ranking argsort key seoul) (count_by key seoul)
             /\ forall k c, In (k, c) (ranking argsort key seoul) <->
                  c = Z.of_nat (List.length (rows_with key k seoul)) /\ 0 < c).
  { intros key Hok. unfold ranking, count_descending.
    pose proof (sort_values_desc_Permutation argsort snd _ Hok) as P.
    split; [now apply sort_values_desc_sorted|]. split; [exact P|].
    intros k c. rewrite <- In_size_groupby. unfold count_by in *. split.
    - now apply Permutation_in.
    - apply Permutation_in. now symmetry. }
  split; [now apply Rank|]. split; [now apply Rank|].
  split; apply count_by_groups.
Qed.

Lemma ranking_descending_scenario :
  exists seoul cause region,
    (count_descending cause
     /\ Permutation cause (count_by cause_key seoul)
     /\ forall k c, In (k, c) cause <->
          c = Z.of_nat (List.length (rows_with cause_key k seoul)) /\ 0 < c)
    /\ (count_descending region
        /\ Permutation region (count_by sub_region_key seoul)
        /\ forall k c, In (k, c) region <->
             c = Z.of_nat (List.length (rows_with sub_region_key k seoul)) /\ 0 < c)
    /\ key_sorted (count_by cause_key seoul)
    /\ key_sorted (count_by sub_region_key seoul).
Proof.
  do 3 eexists.
  eapply (@ranking_descending Sample.now stable_argsort fire_scenario);
    vm_compute; reflexivity.
Defined.

(** C6, as stated, fails, and for every sorting procedure: the tables
    [fire_ba] and [fire_ab] hold the same two incidents in the two row
    orders, each cause once.  [groupby] hands both to the sort as the same
    two groups, so the two summaries are equal, while a tie broken by first
    encounter would order them differently. *)
Lemma ties_not_by_first_seen :
  ~ exists argsort,
      argsort_ok argsort [1; 1] = true
      /\ (forall seoul monthly cause region,
             preprocess_fire Sample.now argsort fire_ba
             = Ok (seoul, monthly, cause, region) ->
             ties_by_first_seen cause_key seoul cause)
      /\ (forall seoul monthly cause region,
             preprocess_fire Sample.now argsort fire_ab
             = Ok (seoul, monthly, cause, region) ->
             ties_by_first_seen cause_key seoul cause).
Proof.
  intros (argsort & Hok & Hba & Hab).
  destruct (preprocess_fire_ba argsort) as (s1 & m1 & r1 & E1 & A1 & B1).
  destruct (preprocess_fire_ab argsort) as (s2 & m2 & r2 & E2 & A2 & B2).
  specialize (Hba _ _ _ _ E1). specialize (Hab _ _ _ _ E2).
  destruct (argsort_ok_two argsort Hok) as [Hs | Hs].
  - rewrite sort_two_kept in Hba by (reflexivity || exact Hs).
    apply ties_of_two in Hba; [|reflexivity]. simpl in Hba.
    rewrite A1, B1 in Hba. lia.
  - rewrite sort_two_swapped in Hab by (reflexivity || exact Hs).
    apply ties_of_two in Hab; [|reflexivity]. simpl in Hab.
    rewrite A2, B2 in Hab. lia.
Qed.

(** ** The joins and the weather summaries *)

Lemma merge_is_inner_join {K} {O : Ord K} {OL : OrdLaws K} {A B}
      (left : list (K * A)) (right : list (K * B)) :
  inner_join_of left right (merge_inner left right).
Proof.
  split; [apply In_merge_inner|]. split; [apply merged_keys|].
  split; [apply merged_keys_NoDup|].
  intros [-> | ->]; [reflexivity | apply merge_inner_nil_r].
Qed.

Lemma midnight_injective (d d' : Date) : midnight d = midnight d' -> d = d'.
Proof. now intros [= ->]. Qed.

Lemma NoDup_map_injective {A B} (f : A -> B) (l : list A) :
  (forall x y, f x = f y -> x = y) -> NoDup l -> NoDup (map f l).
Proof.
  intros inj. induction 1 as [|a l Hnot N IH]; simpl; constructor; [|assumption].
  intros Hin. apply in_map_iff in Hin as (b & E & Hb). apply inj in E.
  now subst.
Qed.

Section WeatherFacts.
Variable to_datetime : list Cell -> result (list (option Timestamp)).

Lemma preprocess_weather_Ok weather w monthly daily :
  preprocess_weather to_datetime weather = Ok (w, monthly, daily) ->
  monthly = agg weather_agg (groupby Weather.연도_월 w)
  /\ daily = map (fun g => (midnight (fst g), snd g))
                 (agg weather_agg (groupby Weather.날짜 w)).
Proof.
  unfold preprocess_weather.
  destruct (to_datetime (map Weather.일시 (filter_station weather)));
    simpl; [|discriminate].
  intros [= <- <- <-]. split; reflexivity.
Qed.

Lemma weather_summaries_keys weather w monthly daily :
  preprocess_weather to_datetime weather = Ok (w, monthly, daily) ->
  NoDup (map fst monthly) /\ NoDup (map fst daily).
Proof.
  intros E. apply preprocess_weather_Ok in E as [-> ->]. split.
  - apply key_sorted_NoDup. unfold agg.
    apply key_sorted_map; [reflexivity | apply groupby_sorted].
  - rewrite map_map. cbn [fst].
    rewrite <- (map_map fst midnight).
    apply NoDup_map_injective; [exact midnight_injective|].
    apply key_sorted_NoDup. unfold agg.
    apply key_sorted_map; [reflexivity | apply groupby_sorted].
Qed.
End WeatherFacts.

Lemma In_rows_with {K} {O : Ord K} {OL : OrdLaws K} {R}
      (key : R -> option K) (k : K) (rows : list R) (r : R) :
  In r (rows_with key k rows) <-> In r rows /\ key r = Some k.
Proof.
  unfold rows_with, has_key. rewrite filter_In.
  destruct (key r) as [k'|]; [|split; intros [? ?]; discriminate].
  rewrite eqb_key_true. split; intros [? ?]; split; congruence.
Qed.

Lemma dropna_present (qs : list Q) : dropna (map Some qs) = qs.
Proof. induction qs as [|q qs IH]; simpl; [reflexivity | now f_equal]. Qed.

(** C1. Each merged table is the inner join of its two summaries: a merged
    row is a pair of a left row and a right row with equal keys, and every
    such pair is a merged row, so the merged keys are exactly the keys
    present in both inputs and a merged row carries the columns of both
    sides; with distinct keys on both sides no key is merged twice; and the
    join of an empty table with any table is empty.  This holds of the
    monthly join on (year, month) and of the daily join on the date, whose
    left side, the daily incident counts, never repeats a key; in [main]
    all four joined summaries have distinct keys. *)
Theorem joins_are_inner_joins :
  forall (W : Type)
         (fire_months : list ((Z * Z) * Z))
         (weather_months : list ((Z * Z) * W))
         (incidents : list Fire.Row)
         (weather_days : list (Timestamp * W)),
    inner_join_of fire_months weather_months
                  (merge_inner fire_months weather_months)
    /\ inner_join_of (daily_fire incidents) weather_days
                     (make_daily_merge incidents weather_days)
    /\ NoDup (map fst (daily_fire incidents))
    /\ (forall now argsort to_datetime fire weather T,
           main now argsort to_datetime fire weather = Ok T ->
           inner_join_of (monthly_fire T) (monthly_weather T) (monthly_merge T)
           /\ inner_join_of (daily_fire (seoul_fire T)) (daily_weather T)
                            (daily_merge T)
           /\ NoDup (map merged_key (monthly_merge T))
           /\ NoDup (map merged_key (daily_merge T))).
Proof.
  intros W fire_months weather_months incidents weather_days.
  assert (D : forall rows, NoDup (map fst (daily_fire rows))).
  { intros rows. apply key_sorted_NoDup. unfold daily_fire, size.
    apply key_sorted_map; [reflexivity | apply groupby_sorted]. }
  split; [apply merge_is_inner_join|]. split; [apply merge_is_inner_join|].
  split; [apply D|].
  intros now argsort to_datetime fire weather T E. unfold main in E.
  destruct (preprocess_fire now argsort fire) as [[[[sf mf] cf] rf]|] eqn:Ef;
    simpl in E; [|discriminate].
  destruct (preprocess_weather to_datetime weather) as [[[wa mw] dw]|] eqn:Ew;
    simpl in E; [|discriminate].
  inversion E; subst T; clear E. cbn.
  apply weather_summaries_keys in Ew as [Nm Nd].
  apply preprocess_fire_Ok in Ef as (days & _ & _ & Em & _).
  assert (Nf : NoDup (map fst mf)).
  { subst mf. apply key_sorted_NoDup. unfold count_by, size.
    apply key_sorted_map; [reflexivity | apply groupby_sorted]. }
  split; [apply merge_is_inner_join|]. split; [apply merge_is_inner_join|].
  split; [now apply merged_keys_NoDup|].
  unfold make_daily_merge. apply merged_keys_NoDup; [apply D | exact Nd].
Qed.

(** The scenarios of the incident table: two incidents on 2024-01-01 and
    one on 2024-02-15 give the monthly counts (2024, 1) -> 2 and
    (2024, 2) -> 1 and the daily counts 2 and 1; joined with weather of
    February only, the monthly table has no row for January. *)
Example incident_scenario :
  exists seoul cause region,
    preprocess_fire Sample.now stable_argsort fire_scenario
    = Ok (seoul, [((2024, 1), 2); ((2024, 2), 1)], cause, region)
    /\ daily_fire seoul = [(midnight jan_1, 2); (midnight feb_15, 1)].
Proof. do 3 eexists. split; reflexivity. Qed.

Example january_without_weather :
  exists T,
    main Sample.now stable_argsort Sample.to_datetime
         fire_scenario weather_february = Ok T
    /\ map merged_key (monthly_merge T) = [(2024, 2)]
    /\ map merged_key (daily_merge T) = [midnight feb_15].
Proof. eexists. split; [vm_compute; reflexivity|]. split; reflexivity. Qed.



(** ** The reader *)

Lemma latin1_decode (errors : Errors) (raw : bytes) :
  charmap_decode latin1_table errors raw = Ok (latin1_text raw).
Proof.
  induction raw as [|b raw IH]; simpl; [reflexivity|]. now rewrite IH.
Qed.

Section ReaderFacts.
Variable Table : Type.
Variable read_bytes : string -> result bytes.
Variable codec : string -> option (Errors -> bytes -> result text).
Variable read_csv : text -> result Table.

Lemma decode_latin1 errors raw :
  decode codec "latin1" errors raw = Ok (latin1_text raw).
Proof. unfold decode. simpl. apply latin1_decode. Qed.

Lemma attempt_latin1 raw : attempt codec read_csv raw "latin1" = read_csv (latin1_text raw).
Proof. unfold attempt. now rewrite decode_latin1. Qed.

Lemma try_encodings_None raw encodings :
  try_encodings codec read_csv raw encodings = None <-> Forall (fails codec read_csv raw) encodings.
Proof.
  unfold fails. induction encodings as [|enc rest IH]; simpl.
  - split; [constructor | reflexivity].
  - destruct (attempt codec read_csv raw enc) eqn:E.
    + split; [discriminate|]. intros F. inversion F; subst.
      rewrite E in *. discriminate.
    + rewrite IH. split; [intros F; constructor; [now rewrite E | exact F]|].
      intros F. now inversion F.
Qed.

Lemma try_encodings_Some raw encodings t :
  try_encodings codec read_csv raw encodings = Some t <->
  exists before enc after,
    encodings = before ++ enc :: after
    /\ Forall (fails codec read_csv raw) before
    /\ attempt codec read_csv raw enc = Ok t.
Proof.
  unfold fails. induction encodings as [|enc rest IH]; simpl.
  - split; [discriminate|]. intros (b & e & a & E & _). now destruct b.
  - destruct (attempt codec read_csv raw enc) as [t'|x] eqn:E.
    + split.
      * intros [= ->]. exists [], enc, rest. repeat split; [constructor | exact E].
      * intros ([|b0 b] & e & a & El & F & Et); simpl in El;
          injection El as <- _.
        -- congruence.
        -- inversion F; subst. rewrite E in *. discriminate.
    + rewrite IH. split.
      * intros (b & e & a & -> & F & Et). exists (enc :: b), e, a.
        repeat split; [constructor; [now rewrite E | exact F] | exact Et].
      * intros ([|b0 b] & e & a & El & F & Et); simpl in El;
          injection El as <- ->.
        -- congruence.
        -- inversion F; subst. now exists b, e, a.
Qed.

(** When every candidate fails, the reader is the parse of the latin1
    text. *)
Lemma read_csv_any_fallback path raw encodings :
  read_bytes path = Ok raw ->
  Forall (fails codec read_csv raw) encodings ->
  read_csv_any read_bytes codec read_csv path encodings
  = read_csv (latin1_text raw).
Proof.
  intros Er F. apply try_encodings_None in F.
  unfold read_csv_any. rewrite Er. cbn [bind]. rewrite F.
  now rewrite decode_latin1.
Qed.
End ReaderFacts.

(** C10. latin1 gives every byte a character, so decoding with
    [errors="ignore"] drops nothing and returns the text of the strict
    decoding, for every byte string.  With the default candidates the
    last-resort parse therefore runs on the text the fourth candidate
    already parsed: the reader is the three other candidates followed by
    one parse of the latin1 text. *)
Theorem latin1_ignore_is_strict :
  (forall raw : bytes,
      charmap_decode latin1_table ignore raw
      = charmap_decode latin1_table strict raw
      /\ charmap_decode latin1_table strict raw = Ok (latin1_text raw)
      /\ List.length (latin1_text raw) = List.length raw)
  /\ (forall codec raw,
         decode codec "latin1" ignore raw = decode codec "latin1" strict raw)
  /\ (forall Table read_bytes codec (read_csv : text -> result Table) path,
         read_csv_any read_bytes codec read_csv path default_encodings
         = raw <- read_bytes path ;;
           match try_encodings codec read_csv raw ["utf-8-sig"; "cp949"; "euc-kr"]%string with
           | Some t => Ok t
           | None => attempt codec read_csv raw "latin1"
           end).
Proof.
  split; [|split].
  - intros raw. rewrite !latin1_decode. repeat split.
    unfold latin1_text. apply length_map.
  - intros codec raw. now rewrite !decode_latin1.
  - intros Table read_bytes codec read_csv path.
    unfold read_csv_any, default_encodings.
    destruct (read_bytes path) as [raw|e]; [|reflexivity].
    cbn [bind try_encodings].
    destruct (attempt codec read_csv raw "utf-8-sig"); [reflexivity|].
    destruct (attempt codec read_csv raw "cp949"); [reflexivity|].
    destruct (attempt codec read_csv raw "euc-kr"); [reflexivity|].
    rewrite decode_latin1. cbn [bind]. rewrite attempt_latin1.
    now destruct (read_csv (latin1_text raw)).
Qed.

(** C2 (amended). An I/O error of the read propagates.  For every byte
    content read, the reader returns the table of the first candidate
    encoding that decodes and parses; when every candidate fails, the
    last-resort decoding (latin1, errors ignored) never fails, and the
    reader returns the outcome of parsing that text: a table when it parses,
    and otherwise the parser's exception, which reaches the caller. *)
Theorem read_csv_any_outcome :
  forall Table read_bytes codec (read_csv : text -> result Table) path encodings,
    (forall e, read_bytes path = Raise e ->
               read_csv_any read_bytes codec read_csv path encodings = Raise e)
    /\ (forall raw, read_bytes path = Ok raw ->
          decode codec "latin1" ignore raw = Ok (latin1_text raw)
          /\ (forall t,
                 read_csv_any read_bytes codec read_csv path encodings = Ok t <->
                 (exists before enc after,
                     encodings = before ++ enc :: after
                     /\ Forall (fails codec read_csv raw) before
                     /\ attempt codec read_csv raw enc = Ok t)
                 \/ (Forall (fails codec read_csv raw) encodings
                     /\ read_csv (latin1_text raw) = Ok t))
          /\ (forall e,
                 read_csv_any read_bytes codec read_csv path encodings = Raise e <->
                 Forall (fails codec read_csv raw) encodings
                 /\ read_csv (latin1_text raw) = Raise e)).
Proof.
  intros Table read_bytes codec read_csv path encodings. split.
  - intros e Er. unfold read_csv_any. now rewrite Er.
  - intros raw Er. split; [apply decode_latin1|].
    unfold read_csv_any. rewrite Er. cbn [bind].
    rewrite decode_latin1. cbn [bind].
    destruct (try_encodings codec read_csv raw encodings) as [t0|] eqn:T.
    + pose proof T as T'. apply try_encodings_Some in T'. split.
      * intros t. split.
        -- intros [= <-]. now left.
        -- intros [H | [F _]].
           ++ apply try_encodings_Some in H. congruence.
           ++ apply try_encodings_None in F. congruence.
      * intros e. split; [discriminate|].
        intros [F _]. apply try_encodings_None in F. congruence.
    + pose proof T as F. apply try_encodings_None in F. split.
      * intros t. split; [now right|].
        intros [H | [_ H]]; [|exact H].
        apply try_encodings_Some in H. congruence.
      * intros e. split; [now split | now intros [_ H]].
Qed.

(** The reader in the sample environment: a file that parses under the
    first candidate, and a path that cannot be read. *)
Example read_csv_any_sample :
  read_csv_any Sample.file_system Sample.codec Sample.read_csv
               "a.csv" default_encodings
  = Ok [[[97]; [98]]; [[49]; [50]]]%N
  /\ read_csv_any Sample.file_system Sample.codec Sample.read_csv
                  "missing.csv" default_encodings
     = Raise OSError.
Proof. split; reflexivity. Qed.

(** C2, as stated, fails: a file of zero bytes is read without an I/O
    error, every candidate decodes it to the empty text, which
    [pd.read_csv] rejects with [EmptyDataError], and so does the
    last-resort parse, outside any [try].  The sample environment shows it,
    and no environment with these two facts returns a table. *)
Lemma empty_file_raises :
  read_csv_any Sample.file_system Sample.codec Sample.read_csv
               "empty.csv" default_encodings
  = Raise EmptyDataError
  /\ ~ exists (Table : Type) read_bytes codec (read_csv : text -> result Table),
         read_bytes "empty.csv"%string = Ok []
         /\ (forall enc d, codec enc = Some d -> d strict [] = Ok [])
         /\ read_csv [] = Raise EmptyDataError
         /\ exists t,
              read_csv_any read_bytes codec read_csv "empty.csv" default_encodings
              = Ok t.
Proof.
  split; [reflexivity|].
  intros (Table & read_bytes & codec & read_csv & Er & Hc & Hp & t & E).
  assert (A : forall enc, is_ok (attempt codec read_csv [] enc) = false).
  { intros enc. unfold attempt, decode.
    destruct (String.eqb enc "latin1"); simpl; [now rewrite Hp|].
    destruct (codec enc) as [d|] eqn:Ed; [|reflexivity].
    rewrite (Hc _ _ Ed). simpl. now rewrite Hp. }
  rewrite (@read_csv_any_fallback _ read_bytes codec read_csv _ []
             default_encodings Er) in E.
  - simpl in E. congruence.
  - apply Forall_forall. intros enc _. apply A.
Qed.

(* ================================================================== *)
(** * Further properties *)

(** ** Keys and values of a grouped table *)

Section GroupKeys.
Context {K : Type} {O : Ord K} {OL : OrdLaws K} {R : Type}.
Variable key : R -> option K.

Lemma rows_with_nil (k : K) (rows : list R) :
  rows_with key k rows = [] <-> ~ exists r, In r rows /\ key r = Some k.
Proof.
  split.
  - intros E (r & Hr & Ek).
    assert (Hin : In r (rows_with key k rows)) by (apply In_rows_with; auto).
    rewrite E in Hin. destruct Hin.
  - intros N. destruct (rows_with key k rows) as [|r rs] eqn:E; [reflexivity|].
    exfalso. apply N. exists r. apply In_rows_with. rewrite E. now left.
Qed.

Lemma lookup_size_groupby (k : K) (rows : list R) :
  lookup k (size (groupby key rows)) =
    match rows_with key k rows with
    | [] => None
    | rs => Some (Z.of_nat (List.length rs))
    end.
Proof.
  unfold size.
  rewrite (lookup_map (fun rs : list R => Z.of_nat (List.length rs))).
  rewrite lookup_groupby. now destruct (rows_with key k rows).
Qed.

Lemma lookup_agg_groupby {V} (f : list R -> V) (k : K) (rows : list R) :
  lookup k (agg f (groupby key rows)) =
    match rows_with key k rows with
    | [] => None
    | rs => Some (f rs)
    end.
Proof.
  unfold agg. rewrite (lookup_map f), lookup_groupby.
  now destruct (rows_with key k rows).
Qed.

Lemma agg_sorted {V} (f : list R -> V) (rows : list R) :
  key_sorted (agg f (groupby key rows)).
Proof.
  unfold agg. apply key_sorted_map; [reflexivity | apply groupby_sorted].
Qed.

(** The keys of the groups are the keys that occur. *)
Lemma groupby_keys (k : K) (rows : list R) :
  In k (map fst (groupby key rows)) <-> exists r, In r rows /\ key r = Some k.
Proof.
  split.
  - intros Hin. apply in_map_iff in Hin as ([k' rs] & <- & Hin).
    apply (In_lookup _ _ (groupby_sorted key rows)) in Hin.
    rewrite lookup_groupby in Hin. simpl.
    destruct (rows_with key k' rows) as [|r rs'] eqn:E; [discriminate|].
    exists r. apply In_rows_with. rewrite E. now left.
  - intros (r & Hr & Ek).
    destruct (rows_with key k rows) as [|r' rs] eqn:E.
    + exfalso. apply rows_with_nil in E. apply E. eauto.
    + apply in_map_iff. exists (k, r' :: rs). split; [reflexivity|].
      apply (In_lookup _ _ (groupby_sorted key rows)).
      rewrite lookup_groupby. now rewrite E.
Qed.
End GroupKeys.

Lemma reindex_labels {K V} `{Ord K} (labels : list K) (fill : V)
      (series : list (K * V)) :
  map fst (reindex labels fill series) = labels.
Proof.
  unfold reindex. rewrite map_map. simpl. apply map_id.
Qed.

Lemma In_reindex {K V} `{Ord K} (labels : list K) (fill : V)
      (series : list (K * V)) (l : K) (v : V) :
  In (l, v) (reindex labels fill series) <->
  In l labels /\ v = match lookup l series with Some x => x | None => fill end.
Proof.
  unfold reindex. rewrite in_map_iff. split.
  - intros (l' & [= -> ->] & Hl). auto.
  - intros [Hl ->]. now exists l.
Qed.

(** ** Sums over a table *)

Lemma weigh_app {R} (wt : R -> Z) (l1 l2 : list R) :
  weigh wt (l1 ++ l2) = weigh wt l1 + weigh wt l2.
Proof. induction l1 as [|r l1 IH]; simpl; [reflexivity | rewrite IH; lia]. Qed.

Lemma weigh_ones {R} (rows : list R) :
  weigh (fun _ => 1) rows = Z.of_nat (List.length rows).
Proof.
  induction rows as [|r rows IH]; [reflexivity|].
  change (weigh (fun _ : R => 1) (r :: rows))
    with (1 + weigh (fun _ : R => 1) rows).
  rewrite IH. cbn [List.length]. lia.
Qed.

Lemma sum_present_deaths (rows : list Fire.Row) :
  fold_right Z.add 0 (present (map (fun r => Fire.DTH_CNT (Fire.raw r)) rows))
  = weigh deaths_of rows.
Proof.
  unfold deaths_of, present.
  induction rows as [|r rows IH]; [reflexivity|].
  cbn [map flat_map weigh fold_right]. rewrite fold_right_app.
  destruct (Fire.DTH_CNT (Fire.raw r)); cbn [fold_right];
    rewrite IH; reflexivity.
Qed.

Lemma magnitude_nonneg (xs : list Z) : 0 <= magnitude xs.
Proof. induction xs as [|x xs IH]; simpl; lia. Qed.

Lemma magnitude_app (xs ys : list Z) :
  magnitude (xs ++ ys) = magnitude xs + magnitude ys.
Proof. induction xs as [|x xs IH]; simpl; [reflexivity | rewrite IH; lia]. Qed.

Lemma sum_le_magnitude (xs : list Z) :
  Z.abs (fold_right Z.add 0 xs) <= magnitude xs.
Proof. induction xs as [|x xs IH]; simpl; lia. Qed.

(** A part of a table weighs no more than the table. *)
Lemma magnitude_filter (f : Fire.Row -> bool) (rows : list Fire.Row) :
  magnitude (present (map (fun r => Fire.DTH_CNT (Fire.raw r)) (filter f rows)))
  <= magnitude (present (map (fun r => Fire.DTH_CNT (Fire.raw r)) rows)).
Proof.
  unfold present. induction rows as [|r rows IH]; [reflexivity|].
  cbn [filter map flat_map]. rewrite magnitude_app.
  pose proof (magnitude_nonneg
                (match Fire.DTH_CNT (Fire.raw r) with
                 | Some z => [z]
                 | None => []
                 end)).
  destruct (f r); cbn [map flat_map]; rewrite ?magnitude_app; lia.
Qed.

Lemma wrap64_small (z : Z) : - 2 ^ 63 <= z < 2 ^ 63 -> wrap64 z = z.
Proof. intros H. unfold wrap64. rewrite Z.mod_small; lia. Qed.

(** Within 2^53 the sum of a column is the exact sum, whatever the dtype. *)
Lemma deaths_exact (float_sum : list Z -> Z) (t : dtype) (rows : list Fire.Row) :
  exact_below_2_53 float_sum ->
  magnitude (present (map (fun r => Fire.DTH_CNT (Fire.raw r)) rows)) <= 2 ^ 53 ->
  deaths float_sum t rows = weigh deaths_of rows.
Proof.
  intros Exact Small. rewrite <- sum_present_deaths.
  unfold deaths, column_sum.
  pose proof (sum_le_magnitude
                (present (map (fun r => Fire.DTH_CNT (Fire.raw r)) rows))).
  destruct t; [apply wrap64_small; lia | now apply Exact | reflexivity].
Qed.

Lemma weigh_filter_le {R} (wt : R -> Z) (f : R -> bool) (rows : list R) :
  (forall r, In r rows -> 0 <= wt r) ->
  weigh wt (filter f rows) <= weigh wt rows.
Proof.
  induction rows as [|r rows IH]; simpl; intros Pos; [lia|].
  assert (0 <= wt r) by (apply Pos; now left).
  assert (weigh wt (filter f rows) <= weigh wt rows)
    by (apply IH; intros; apply Pos; now right).
  destruct (f r); simpl; lia.
Qed.

Lemma eqb_key_Z (a b : Z) : eqb_key a b = (a =? b).
Proof.
  unfold eqb_key, cmp, Ord_Z. rewrite Z.eqb_compare. reflexivity.
Qed.

Lemma weigh_cons {R} (wt : R -> Z) (r : R) (rows : list R) :
  weigh wt (r :: rows) = wt r + weigh wt rows.
Proof. reflexivity. Qed.

Ltac decide_comparisons :=
  repeat match goal with
         | |- context [Z.eqb ?a ?b] =>
             let v := eval vm_compute in (Z.eqb a b) in
             change (Z.eqb a b) with v
         | |- context [Z.leb ?a ?b] =>
             let v := eval vm_compute in (Z.leb a b) in
             change (Z.leb a b) with v
         end.

Lemma has_key_month (m : Z) (r : Fire.Row) :
  has_key Fire.월 m r
  = match Fire.월 r with Some z => m =? z | None => false end.
Proof.
  unfold has_key. destruct (Fire.월 r); [apply eqb_key_Z | reflexivity].
Qed.

(** Month by month, the rows of the twelve months add up to the rows
    whose month is one of the twelve. *)
Lemma weigh_by_month (wt : Fire.Row -> Z) (rows : list Fire.Row) :
  fold_right Z.add 0
    (map (fun m => weigh wt (rows_with Fire.월 m rows)) months)
  = weigh wt (filter in_calendar rows).
Proof.
  induction rows as [|r rows IH]; [reflexivity|].
  unfold months in *. cbn [map fold_right] in *.
  unfold rows_with in *. cbn [filter]. rewrite !has_key_month.
  unfold in_calendar at 1.
  destruct (Fire.월 r) as [z|]; [|exact IH].
  repeat match goal with
         | |- context [?k =? z] =>
             destruct (Z.eqb_spec k z);
             [subst z; decide_comparisons; cbn [andb];
              rewrite !weigh_cons; lia|]
         end.
  replace ((1 <=? z) && (z <=? 12)) with false; [exact IH|].
  symmetry. apply andb_false_iff. rewrite !Z.leb_gt. lia.
Qed.

Lemma count_sum_reindex (fill : Z) (series : list (Z * Z)) (labels : list Z) :
  count_sum (reindex labels fill series)
  = fold_right Z.add 0
      (map (fun l => match lookup l series with Some v => v | None => fill end)
           labels).
Proof. unfold count_sum, reindex. now rewrite map_map. Qed.

Lemma filter_length_le {A} (f : A -> bool) (l : list A) :
  (List.length (filter f l) <= List.length l)%nat.
Proof.
  induction l as [|a l IH]; simpl; [lia|]. destruct (f a); simpl; lia.
Qed.

Lemma filter_length_all {A} (f : A -> bool) (l : list A) :
  List.length (filter f l) = List.length l <-> forall a, In a l -> f a = true.
Proof.
  induction l as [|a l IH]; simpl.
  - split; [intros _ a [] | reflexivity].
  - pose proof (filter_length_le f l). destruct (f a) eqn:E; simpl.
    + split.
      * intros [= L] b [<- | Hb]; [exact E | now apply IH].
      * intros H'. f_equal. apply IH. auto.
    + split; [lia|]. intros H'. specialize (H' a (or_introl eq_refl)). congruence.
Qed.

Section OverviewFacts.
Variable seoul_fire : list Fire.Row.
Variable year : Z.
Variable gu : string.

Lemma fire_trend_value (m : Z) :
  match lookup m (size (groupby Fire.월 (filtered seoul_fire year gu))) with
  | Some c => c
  | None => 0
  end
  = Z.of_nat (List.length (rows_with Fire.월 m (filtered seoul_fire year gu))).
Proof.
  rewrite lookup_size_groupby.
  now destruct (rows_with Fire.월 m (filtered seoul_fire year gu)).
Qed.

Lemma death_trend_value (float_sum : list Z -> Z) (dth : dtype) (m : Z) :
  match lookup m (agg (deaths float_sum dth)
                      (groupby Fire.월 (filtered seoul_fire year gu))) with
  | Some c => c
  | None => 0
  end
  = match rows_with Fire.월 m (filtered seoul_fire year gu) with
    | [] => 0
    | rows => deaths float_sum dth rows
    end.
Proof.
  rewrite lookup_agg_groupby.
  now destruct (rows_with Fire.월 m (filtered seoul_fire year gu)).
Qed.
End OverviewFacts.

(** X1. The monthly trend of the overview page has exactly twelve rows,
    the months 1 to 12 in order; the count of a month is the number of
    filtered rows of that month, 0 when there is none.  The counts sum to
    the number of filtered rows whose month is one of 1..12, so a row with
    a missing or out-of-range month is in the fire count of the page and in
    no month of the trend: the trend sums to the fire count exactly when
    every filtered row has a month in 1..12. *)
Theorem monthly_fire_trend_calendar (seoul_fire : list Fire.Row) (year : Z)
        (gu : string) :
  map fst (monthly_fire_trend seoul_fire year gu) = months
  /\ (forall m c,
         In (m, c) (monthly_fire_trend seoul_fire year gu) <->
         In m months
         /\ c = Z.of_nat (List.length
                            (rows_with Fire.월 m (filtered seoul_fire year gu))))
  /\ count_sum (monthly_fire_trend seoul_fire year gu)
     = Z.of_nat (List.length (filter in_calendar (filtered seoul_fire year gu)))
  /\ count_sum (monthly_fire_trend seoul_fire year gu)
     <= kpi_fires seoul_fire year gu
  /\ (count_sum (monthly_fire_trend seoul_fire year gu)
      = kpi_fires seoul_fire year gu <->
      forall r, In r (filtered seoul_fire year gu) -> in_calendar r = true).
Proof.
  unfold monthly_fire_trend, kpi_fires.
  set (rows := filtered seoul_fire year gu).
  assert (S : count_sum (reindex months 0 (size (groupby Fire.월 rows)))
              = Z.of_nat (List.length (filter in_calendar rows))).
  { rewrite count_sum_reindex.
    rewrite (map_ext _ (fun m => weigh (fun _ => 1) (rows_with Fire.월 m rows))).
    - now rewrite weigh_by_month, weigh_ones.
    - intros m. unfold rows. rewrite fire_trend_value. now rewrite weigh_ones. }
  split; [apply reindex_labels|]. split.
  { intros m c. rewrite In_reindex. unfold rows. now rewrite fire_trend_value. }
  split; [exact S|]. rewrite S.
  pose proof (filter_length_le in_calendar rows). split; [lia|].
  rewrite <- filter_length_all. split; [intros E; lia | intros ->; reflexivity].
Qed.



(** Two counts of 2^62 in an int64 column: the value of January is the
    wrapped sum, -2^63. *)
Example death_trend_wraps :
  In (1, - 2 ^ 63) (monthly_death_trend exact_sum int64 seoul_overflow 2024 전체)
  /\ exact_below_2_53 exact_sum.
Proof. split; [now left | intros xs _; reflexivity]. Qed.

(** ** Rankings of the overview page *)

Lemma count_sum_Permutation {K} (t t' : list (K * Z)) :
  Permutation t t' -> count_sum t = count_sum t'.
Proof.
  unfold count_sum. induction 1; simpl; lia.
Qed.

Lemma has_key_cell {R} (key : R -> option string) (k : string) (r : R) :
  has_key key k r = cell_is k (key r).
Proof.
  unfold has_key, cell_is. destruct (key r) as [s|]; [|reflexivity].
  destruct (String.eqb s k) eqn:E.
  - apply String.eqb_eq in E. subst. apply eqb_key_refl.
  - destruct (eqb_key k s) eqn:E'; [|reflexivity].
    apply eqb_key_true in E'. subst. now rewrite String.eqb_refl in E.
Qed.

Lemma StronglySorted_app_l {A} (R : A -> A -> Prop) (l1 l2 : list A) :
  StronglySorted R (l1 ++ l2) -> StronglySorted R l1.
Proof.
  induction l1 as [|a l1 IH]; simpl; intros S; [constructor|].
  inversion S as [|? ? S' F]; subst. constructor; [auto|].
  apply Forall_app in F. tauto.
Qed.

Lemma StronglySorted_across {A} (R : A -> A -> Prop) (l1 l2 : list A) :
  StronglySorted R (l1 ++ l2) -> forall a b, In a l1 -> In b l2 -> R a b.
Proof.
  induction l1 as [|x l1 IH]; simpl; intros S a b Ha Hb; [destruct Ha|].
  inversion S as [|? ? S' F]; subst. destruct Ha as [<- | Ha].
  - rewrite Forall_forall in F. apply F. apply in_or_app. now right.
  - now apply IH.
Qed.

Section RankingFacts.
Variable argsort : list Z -> list nat.
Context {R : Type}.
Variable key : R -> option string.
Variable rows : list R.
Hypothesis sorts : argsort_ok argsort (rev (map snd (size (groupby key rows)))) = true.

Lemma sorted_counts_Permutation :
  Permutation (sort_values_desc argsort snd (size (groupby key rows)))
              (size (groupby key rows)).
Proof. now apply sort_values_desc_Permutation. Qed.

Lemma In_sorted_counts (k : string) (c : Z) :
  In (k, c) (sort_values_desc argsort snd (size (groupby key rows))) <->
  c = Z.of_nat (List.length (rows_with key k rows)) /\ 0 < c.
Proof.
  rewrite <- In_size_groupby. split; apply Permutation_in;
    [|symmetry]; apply sorted_counts_Permutation.
Qed.

Lemma count_sum_sorted_counts :
  count_sum (sort_values_desc argsort snd (size (groupby key rows)))
  = Z.of_nat (List.length (filter (keyed key) rows)).
Proof.
  rewrite (count_sum_Permutation sorted_counts_Permutation).
  now rewrite count_sum_size, groupby_total.
Qed.
End RankingFacts.

(** X3. The sub-region chart agrees with the fire count of the page: given
    that [argsort] sorts the counts, the chart has a bar for a sub-region
    exactly when selecting that sub-region gives a positive fire count,
    and the bar is that count.  The bars sum to the number of rows of the
    year that have a sub-region, at most the fire count of the year with
    all sub-regions selected. *)
Theorem region_chart_matches_count argsort (seoul_fire : list Fire.Row)
        (year : Z) (gu : string) :
  argsort_ok argsort
    (rev (map snd (count_by sub_region_key (year_rows seoul_fire year)))) = true ->
  gu <> 전체 ->
  (forall c, In (gu, c) (region_sel argsort seoul_fire year) <->
             c = kpi_fires seoul_fire year gu /\ 0 < c)
  /\ count_sum (region_sel argsort seoul_fire year)
     = Z.of_nat (List.length
                   (filter (keyed sub_region_key) (year_rows seoul_fire year)))
  /\ count_sum (region_sel argsort seoul_fire year)
     <= kpi_fires seoul_fire year 전체.
Proof.
  intros Hok Hgu. unfold region_sel, ranking, count_by in *.
  assert (F : filtered seoul_fire year gu
              = rows_with sub_region_key gu (year_rows seoul_fire year)).
  { unfold filtered, rows_with.
    destruct (String.eqb gu 전체) eqn:E;
      [apply String.eqb_eq in E; contradiction|].
    cbn [negb]. apply filter_ext. intros r. symmetry. apply has_key_cell. }
  split; [|split].
  - intros c. rewrite (In_sorted_counts _ _ _ Hok). unfold kpi_fires.
    now rewrite F.
  - now apply count_sum_sorted_counts.
  - rewrite (count_sum_sorted_counts _ _ _ Hok). unfold kpi_fires, filtered.
    rewrite String.eqb_refl. cbn [negb].
    pose proof (filter_length_le (keyed sub_region_key)
                                 (year_rows seoul_fire year)). lia.
Qed.

Lemma region_chart_matches_count_scenario :
  (forall c, In ("Jongno"%string, c) (region_sel stable_argsort seoul_scenario 2024) <->
             c = kpi_fires seoul_scenario 2024 "Jongno" /\ 0 < c)
  /\ count_sum (region_sel stable_argsort seoul_scenario 2024)
     = Z.of_nat (List.length
                   (filter (keyed sub_region_key) (year_rows seoul_scenario 2024)))
  /\ count_sum (region_sel stable_argsort seoul_scenario 2024)
     <= kpi_fires seoul_scenario 2024 전체.
Proof.
  apply region_chart_matches_count.
  - vm_compute. reflexivity.
  - vm_compute. discriminate.
Defined.

(** X4. The cause chart shows the head of the cause ranking: given that
    [argsort] sorts the counts, it has at most ten rows, sorted descending
    by count, each a cause of the selection with the number of its rows;
    no cause left out has more rows than a cause shown; and when the
    selection has at most ten causes, all of them are shown. *)
Theorem cause_chart_top_ten argsort (seoul_fire : list Fire.Row)
        (year : Z) (gu : string) :
  argsort_ok argsort
    (rev (map snd (count_by cause_key (filtered seoul_fire year gu)))) = true ->
  (List.length (cause_sel argsort seoul_fire year gu) <= 10)%nat
  /\ count_descending (cause_sel argsort seoul_fire year gu)
  /\ (forall k c,
         In (k, c) (cause_sel argsort seoul_fire year gu) ->
         c = Z.of_nat (List.length
                         (rows_with cause_key k (filtered seoul_fire year gu)))
         /\ 0 < c)
  /\ (forall a b,
         In a (cause_sel argsort seoul_fire year gu) ->
         In b (ranking argsort cause_key (filtered seoul_fire year gu)) ->
         ~ In b (cause_sel argsort seoul_fire year gu) ->
         snd b <= snd a)
  /\ ((List.length (count_by cause_key (filtered seoul_fire year gu)) <= 10)%nat ->
      Permutation (cause_sel argsort seoul_fire year gu)
                  (count_by cause_key (filtered seoul_fire year gu))).
Proof.
  intros Hok. unfold cause_sel.
  set (rows := filtered seoul_fire year gu) in *.
  set (full := ranking argsort cause_key rows).
  assert (S : StronglySorted (fun a b => snd b <= snd a) full)
    by now apply sort_values_desc_sorted.
  assert (P : Permutation full (count_by cause_key rows))
    by now apply sort_values_desc_Permutation.
  rewrite <- (firstn_skipn 10 full) in S.
  split; [apply firstn_le_length|]. split.
  { unfold count_descending. now apply StronglySorted_app_l in S. }
  split.
  { intros k c Hin. apply (In_sorted_counts _ _ _ Hok).
    rewrite <- (firstn_skipn 10). apply in_or_app. now left. }
  split.
  { intros a b Ha Hb Hnot. apply (StronglySorted_across _ _ S); [exact Ha|].
    rewrite <- (firstn_skipn 10 full) in Hb. apply in_app_or in Hb. tauto. }
  intros Few. rewrite firstn_all2; [exact P|].
  now rewrite (Permutation_length P).
Qed.

Lemma cause_chart_top_ten_scenario :
  (List.length (cause_sel stable_argsort seoul_scenario 2024 전체) <= 10)%nat
  /\ count_descending (cause_sel stable_argsort seoul_scenario 2024 전체)
  /\ (forall k c,
         In (k, c) (cause_sel stable_argsort seoul_scenario 2024 전체) ->
         c = Z.of_nat (List.length
                         (rows_with cause_key k (filtered seoul_scenario 2024 전체)))
         /\ 0 < c)
  /\ (forall a b,
         In a (cause_sel stable_argsort seoul_scenario 2024 전체) ->
         In b (ranking stable_argsort cause_key (filtered seoul_scenario 2024 전체)) ->
         ~ In b (cause_sel stable_argsort seoul_scenario 2024 전체) ->
         snd b <= snd a)
  /\ ((List.length (count_by cause_key (filtered seoul_scenario 2024 전체)) <= 10)%nat ->
      Permutation (cause_sel stable_argsort seoul_scenario 2024 전체)
                  (count_by cause_key (filtered seoul_scenario 2024 전체))).
Proof.
  apply cause_chart_top_ten. vm_compute. reflexivity.
Defined.

(** ** The trend and the monthly summary *)

Lemma filter_filter {A} (f g : A -> bool) (l : list A) :
  filter f (filter g l) = filter (fun a => g a && f a) l.
Proof.
  induction l as [|a l IH]; simpl; [reflexivity|].
  destruct (g a); simpl; [destruct (f a)|]; now rewrite IH.
Qed.

Lemma eqb_key_pair_Z (y m y' m' : Z) :
  eqb_key (y, m) (y', m') = (y' =? y) && (m =? m').
Proof.
  unfold eqb_key. rewrite cmp_pair. unfold cmp, Ord_Z.
  destruct (Z.compare_spec y y'), (Z.compare_spec m m'),
    (Z.eqb_spec y' y), (Z.eqb_spec m m'); simpl; try reflexivity; lia.
Qed.

Lemma year_month_rows (rows : list Fire.Row) (year m : Z) :
  rows_with Fire.월 m (year_rows rows year)
  = rows_with Fire.연도_월 (year, m) rows.
Proof.
  unfold rows_with, year_rows. rewrite filter_filter. apply filter_ext.
  intros r. rewrite has_key_month. unfold has_key, Fire.연도_월, int_is.
  destruct (Fire.연도 r) as [y|], (Fire.월 r) as [z|]; try reflexivity.
  - symmetry. apply eqb_key_pair_Z.
  - apply andb_false_r.
Qed.

(** X5. With all sub-regions selected, the monthly trend of the overview
    page repeats the monthly incident summary of [preprocess_fire]: the
    count of month [m] is the count the summary holds for (year, m), and 0
    when the summary has no row for it. *)
Theorem trend_repeats_monthly_summary (seoul_fire : list Fire.Row) (year : Z) :
  forall m c,
    In (m, c) (monthly_fire_trend seoul_fire year 전체) <->
    In m months
    /\ c = match lookup (year, m) (count_by Fire.연도_월 seoul_fire) with
           | Some n => n
           | None => 0
           end.
Proof.
  intros m c. unfold monthly_fire_trend. rewrite In_reindex, fire_trend_value.
  unfold count_by. rewrite lookup_size_groupby.
  unfold filtered. rewrite String.eqb_refl. cbn [negb].
  rewrite year_month_rows.
  now destruct (rows_with Fire.연도_월 (year, m) seoul_fire).
Qed.

(** ** More on the joins *)

Lemma map_flat_map {A B C} (f : B -> C) (g : A -> list B) (l : list A) :
  map f (flat_map g l) = flat_map (fun a => map f (g a)) l.
Proof.
  induction l as [|a l IH]; simpl; [reflexivity|]. now rewrite map_app, IH.
Qed.

Lemma flat_map_app_Permutation {A B} (f g : A -> list B) (l : list A) :
  Permutation (flat_map (fun a => f a ++ g a) l) (flat_map f l ++ flat_map g l).
Proof.
  induction l as [|a l IH]; simpl; [constructor|].
  rewrite <- !app_assoc. apply Permutation_app_head.
  rewrite IH. rewrite !app_assoc. apply Permutation_app_tail.
  apply Permutation_app_comm.
Qed.

Lemma StronglySorted_filter {A} (R : A -> A -> Prop) (f : A -> bool) (l : list A) :
  StronglySorted R l -> StronglySorted R (filter f l).
Proof.
  induction 1 as [|a l S IH F]; simpl; [constructor|].
  destruct (f a); [|exact IH]. constructor; [exact IH|].
  rewrite Forall_forall in *. intros b Hb. apply filter_In in Hb. now apply F.
Qed.

Section JoinFacts.
Context {K : Type} {O : Ord K} {OL : OrdLaws K} {A B : Type}.
Implicit Types (left : list (K * A)) (right : list (K * B)).

Lemma partners_of_head (a : K * A) right :
  flat_map (fun r => if eqb_key (fst r) (fst a) then [(a, r)] else []) right
  = map (fun r => (a, r)) (filter (fun r => eqb_key (fst a) (fst r)) right).
Proof.
  induction right as [|r right IH]; simpl; [reflexivity|].
  rewrite (eqb_key_sym (fst r) (fst a)).
  destruct (eqb_key (fst a) (fst r)); simpl; now rewrite IH.
Qed.

(** Joining the other way round gives the same rows, sides exchanged, in
    another order. *)
Lemma merge_inner_exchange left right :
  Permutation (map exchange (merge_inner right left)) (merge_inner left right).
Proof.
  unfold merge_inner at 1. rewrite map_flat_map.
  induction left as [|a left IH].
  - simpl. induction right; simpl; [constructor | assumption].
  - erewrite flat_map_ext.
    2:{ intros r. cbn [filter].
        instantiate (1 := fun r =>
          (if eqb_key (fst r) (fst a) then [(a, r)] else [])
          ++ map exchange
               (map (fun l => (r, l))
                    (filter (fun l => eqb_key (fst r) (fst l)) left))).
        cbn beta. destruct (eqb_key (fst r) (fst a)); reflexivity. }
    rewrite flat_map_app_Permutation, partners_of_head.
    cbn [merge_inner flat_map]. apply Permutation_app_head. exact IH.
Qed.

Lemma merge_left_rows left right :
  NoDup (map fst right) ->
  map fst (merge_inner left right)
  = filter (fun l => existsb (eqb_key (fst l)) (map fst right)) left.
Proof.
  intros N. unfold merge_inner.
  induction left as [|l left IH]; simpl; [reflexivity|].
  rewrite map_app, IH, map_map. cbn [fst].
  pose proof (@partners_NoDup K O OL B right (fst l) N) as P.
  destruct (filter (fun r => eqb_key (fst l) (fst r)) right) as [|r [|r' rs]];
    destruct (existsb (eqb_key (fst l)) (map fst right));
    simpl in *; try discriminate; reflexivity.
Qed.

Lemma merged_keys_ascending left right :
  key_sorted left -> NoDup (map fst right) ->
  ascending (map merged_key (merge_inner left right)).
Proof.
  intros S N. rewrite merged_keys_filter by exact N.
  apply StronglySorted_filter.
  clear N. induction S as [|a l S IH F]; simpl; constructor; [exact IH|].
  apply Forall_map. exact F.
Qed.
End JoinFacts.

Lemma count_sum_weigh {K} (t : list (K * Z)) : count_sum t = weigh snd t.
Proof.
  unfold count_sum, weigh. induction t as [|p t IH]; simpl; now rewrite ?IH.
Qed.

(** The counts a join carries are counts of its left table, each at most
    once. *)
Lemma merged_counts_le {K} {O : Ord K} {OL : OrdLaws K} {B}
      (left : list (K * Z)) (right : list (K * B)) :
  NoDup (map fst right) -> (forall l, In l left -> 0 <= snd l) ->
  count_sum (map fst (merge_inner left right)) <= count_sum left.
Proof.
  intros N Pos. rewrite merge_left_rows by exact N.
  rewrite !count_sum_weigh. now apply weigh_filter_le.
Qed.

Lemma size_nonneg {K R} (gs : list (K * list R)) :
  forall l, In l (size gs) -> 0 <= snd l.
Proof.
  intros l Hin. unfold size in Hin. apply in_map_iff in Hin as (g & <- & _).
  simpl. lia.
Qed.

Lemma count_by_groups_any {K} {O : Ord K} {OL : OrdLaws K} {R}
      (key : R -> option K) (rows : list R) :
  key_sorted (size (groupby key rows)).
Proof.
  unfold size. apply key_sorted_map; [reflexivity | apply groupby_sorted].
Qed.

Lemma count_by_le {K} {O : Ord K} {OL : OrdLaws K} {R}
      (key : R -> option K) (rows : list R) :
  count_sum (size (groupby key rows)) <= Z.of_nat (List.length rows).
Proof.
  rewrite count_sum_size, groupby_total.
  pose proof (filter_length_le (keyed key) rows). lia.
Qed.

(** X6. Exchanging the two sides of a join changes neither its rows nor
    how often each occurs: the join of [right] with [left] is, with the
    sides of each row exchanged, a permutation of the join of [left] with
    [right], for the monthly key and for the daily key alike. *)
Theorem joins_symmetric :
  forall (A B : Type)
         (fire_months : list ((Z * Z) * A)) (weather_months : list ((Z * Z) * B))
         (fire_days : list (Timestamp * A)) (weather_days : list (Timestamp * B)),
    Permutation (map exchange (merge_inner weather_months fire_months))
                (merge_inner fire_months weather_months)
    /\ Permutation (map exchange (merge_inner weather_days fire_days))
                   (merge_inner fire_days weather_days)
    /\ (forall l r, In (l, r) (merge_inner fire_months weather_months) <->
                    In (r, l) (merge_inner weather_months fire_months))
    /\ (forall l r, In (l, r) (merge_inner fire_days weather_days) <->
                    In (r, l) (merge_inner weather_days fire_days)).
Proof.
  intros. split; [apply merge_inner_exchange|].
  split; [apply merge_inner_exchange|].
  split; intros l r; rewrite !In_merge_inner; intuition congruence.
Qed.

(** X7. In [main] both merged tables come out in strictly ascending key
    order, by (year, month) and by date, and the incident counts they
    carry sum to at most the number of rows of the derived incident table:
    no incident is counted twice. *)
Theorem merged_tables_ordered now argsort to_datetime fire weather T :
  main now argsort to_datetime fire weather = Ok T ->
  ascending (map merged_key (monthly_merge T))
  /\ ascending (map merged_key (daily_merge T))
  /\ count_sum (map fst (monthly_merge T)) <= Z.of_nat (List.length (seoul_fire T))
  /\ count_sum (map fst (daily_merge T)) <= Z.of_nat (List.length (seoul_fire T)).
Proof.
  intros E. unfold main in E.
  destruct (preprocess_fire now argsort fire) as [[[[sf mf] cf] rf]|] eqn:Ef;
    simpl in E; [|discriminate].
  destruct (preprocess_weather to_datetime weather) as [[[wa mw] dw]|] eqn:Ew;
    simpl in E; [|discriminate].
  inversion E; subst T; clear E. cbn.
  apply weather_summaries_keys in Ew as [Nm Nd].
  apply preprocess_fire_Ok in Ef as (days & _ & _ & -> & _).
  unfold make_daily_merge, daily_fire, count_by.
  split; [apply merged_keys_ascending; [apply count_by_groups_any | exact Nm]|].
  split; [apply merged_keys_ascending; [apply count_by_groups_any | exact Nd]|].
  split.
  - etransitivity; [apply merged_counts_le; [exact Nm | apply size_nonneg]|].
    apply count_by_le.
  - etransitivity; [apply merged_counts_le; [exact Nd | apply size_nonneg]|].
    apply count_by_le.
Qed.

Lemma merged_tables_ordered_scenario :
  exists T,
    ascending (map merged_key (monthly_merge T))
    /\ ascending (map merged_key (daily_merge T))
    /\ count_sum (map fst (monthly_merge T)) <= Z.of_nat (List.length (seoul_fire T))
    /\ count_sum (map fst (daily_merge T)) <= Z.of_nat (List.length (seoul_fire T)).
Proof.
  eexists.
  eapply (@merged_tables_ordered Sample.now stable_argsort Sample.to_datetime
            fire_scenario weather_scenario).
  vm_compute. reflexivity.
Defined.

(** ** Integer dates *)

Lemma cmp_Date (d d' : Date) : cmp d d' = cmp (date_tuple d) (date_tuple d').
Proof. reflexivity. Qed.

Lemma in_bounds_year (d : Date) :
  in_bounds d = true -> 1677 <= d_year d <= 2262.
Proof.
  destruct d as [y m dd]. unfold in_bounds, first_day, last_day.
  rewrite !cmp_Date. unfold date_tuple. cbn [d_year d_month d_day].
  rewrite !cmp_pair.
  repeat match goal with
         | |- context [@cmp Z ?o ?a ?b] =>
             change (@cmp Z o a b) with (Z.compare a b)
         end.
  destruct (Z.compare_spec 1677 y), (Z.compare_spec y 2262); try lia;
    repeat match goal with
           | |- context [match ?c with Eq => _ | Lt => _ | Gt => _ end] =>
               destruct c
           end; intros Hx; try discriminate Hx; lia.
Qed.

Lemma valid_date_bounds (d : Date) :
  valid_date d = true -> 1 <= d_month d <= 12 /\ 1 <= d_day d <= 31.
Proof.
  unfold valid_date. rewrite !andb_true_iff, !Z.leb_le.
  pose proof (days_in_month_le_31 (d_year d) (d_month d)). lia.
Qed.

Lemma below_ten (k : nat) :
  (k < 10)%nat ->
  (k = 0 \/ k = 1 \/ k = 2 \/ k = 3 \/ k = 4 \/ k = 5 \/ k = 6 \/ k = 7
   \/ k = 8 \/ k = 9)%nat.
Proof. lia. Qed.

Ltac digit_cases k :=
  let E := fresh "E" in
  assert (E : (k < 10)%nat) by lia;
  apply below_ten in E;
  repeat (destruct E as [E | E]); subst k; try reflexivity; try lia.

Lemma of_uint_acc_value (d : Decimal.uint) (acc : positive) :
  Z.pos (Pos.of_uint_acc d acc) = uint_value d (Z.pos acc).
Proof.
  revert acc. induction d; intros acc;
    cbn [Pos.of_uint_acc uint_value]; [reflexivity| ..];
    rewrite IHd; f_equal; lia.
Qed.

Lemma uint_value_digit (k : nat) (rest : Decimal.uint) (acc : Z) :
  (k < 10)%nat ->
  uint_value (digit_uint k rest) acc = uint_value rest (10 * acc + Z.of_nat k).
Proof. intros Hk. digit_cases k; simpl; f_equal; lia. Qed.

Lemma of_uint_leading (a : nat) (rest : Decimal.uint) :
  (1 <= a < 10)%nat ->
  Z.of_uint (digit_uint a rest) = uint_value rest (Z.of_nat a)
  /\ Decimal.unorm (digit_uint a rest) = digit_uint a rest.
Proof.
  intros Ha. unfold Z.of_uint.
  digit_cases a; simpl; rewrite ?of_uint_acc_value; split; reflexivity.
Qed.

Lemma string_of_digit (k : nat) (rest : Decimal.uint) :
  (k < 10)%nat ->
  NilEmpty.string_of_uint (digit_uint k rest)
  = String (digit_char k) (NilEmpty.string_of_uint rest).
Proof. intros Hk. digit_cases k. Qed.

Lemma digit_char_value (k : nat) :
  (k < 10)%nat -> is_digit (digit_char k) = true /\ digit (digit_char k) = Z.of_nat k.
Proof. intros Hk. digit_cases k; split; reflexivity. Qed.

(** The decimal text of the integer with the eight digits [a .. h], the
    first not 0. *)
Lemma str_of_eight_digits (a b c d e f g h : nat) :
  (1 <= a < 10)%nat -> (b < 10)%nat -> (c < 10)%nat -> (d < 10)%nat ->
  (e < 10)%nat -> (f < 10)%nat -> (g < 10)%nat -> (h < 10)%nat ->
  str_of_Z (10000000 * Z.of_nat a + 1000000 * Z.of_nat b + 100000 * Z.of_nat c
            + 10000 * Z.of_nat d + 1000 * Z.of_nat e + 100 * Z.of_nat f
            + 10 * Z.of_nat g + Z.of_nat h)
  = string_of_list_ascii
      [digit_char a; digit_char b; digit_char c; digit_char d;
       digit_char e; digit_char f; digit_char g; digit_char h].
Proof.
  intros Ha Hb Hc Hd He Hf Hg Hh.
  set (numeral := digit_uint a (digit_uint b (digit_uint c (digit_uint d
                   (digit_uint e (digit_uint f (digit_uint g
                     (digit_uint h Decimal.Nil)))))))).
  assert (V : Z.of_int (Decimal.Pos numeral)
              = 10000000 * Z.of_nat a + 1000000 * Z.of_nat b
                + 100000 * Z.of_nat c + 10000 * Z.of_nat d
                + 1000 * Z.of_nat e + 100 * Z.of_nat f
                + 10 * Z.of_nat g + Z.of_nat h).
  { unfold Z.of_int, numeral.
    rewrite (proj1 (@of_uint_leading a _ Ha)).
    rewrite !uint_value_digit by assumption. cbn [uint_value]. lia. }
  unfold str_of_Z. rewrite <- V, DecimalZ.to_of.
  unfold Decimal.norm, numeral.
  rewrite (proj2 (@of_uint_leading a _ Ha)).
  assert (NZ : forall rest,
             NilZero.string_of_int (Decimal.Pos (digit_uint a rest))
             = NilEmpty.string_of_uint (digit_uint a rest)).
  { intros rest. clear - Ha. digit_cases a. }
  rewrite NZ, !string_of_digit by (assumption || lia). reflexivity.
Qed.

Lemma integer_date_text (d : Date) :
  valid_date d = true -> in_bounds d = true ->
  yyyymmdd (str_of_Z (yyyymmdd_int d)) = Some d.
Proof.
  intros V B. apply valid_date_bounds in V as [Hm Hd].
  apply in_bounds_year in B. destruct d as [y m dd].
  unfold yyyymmdd_int. cbn [d_year d_month d_day] in *.
  set (a := Z.to_nat (y / 1000)). set (b := Z.to_nat (y / 100 mod 10)).
  set (c := Z.to_nat (y / 10 mod 10)). set (d0 := Z.to_nat (y mod 10)).
  set (e := Z.to_nat (m / 10)). set (f := Z.to_nat (m mod 10)).
  set (g := Z.to_nat (dd / 10)). set (h := Z.to_nat (dd mod 10)).
  assert (Ey : y = 1000 * Z.of_nat a + 100 * Z.of_nat b + 10 * Z.of_nat c
                   + Z.of_nat d0
               /\ (1 <= a < 10)%nat /\ (b < 10)%nat /\ (c < 10)%nat
               /\ (d0 < 10)%nat).
  { unfold a, b, c, d0. Z.div_mod_to_equations. lia. }
  assert (Em : m = 10 * Z.of_nat e + Z.of_nat f /\ (e < 10)%nat /\ (f < 10)%nat).
  { unfold e, f. Z.div_mod_to_equations. lia. }
  assert (Ed : dd = 10 * Z.of_nat g + Z.of_nat h /\ (g < 10)%nat /\ (h < 10)%nat).
  { unfold g, h. Z.div_mod_to_equations. lia. }
  destruct Ey as (Ey & Ha & Hb & Hc & Hd0), Em as (Em & He & Hf),
    Ed as (Ed & Hg & Hh).
  replace (y * 10000 + m * 100 + dd)
    with (10000000 * Z.of_nat a + 1000000 * Z.of_nat b + 100000 * Z.of_nat c
          + 10000 * Z.of_nat d0 + 1000 * Z.of_nat e + 100 * Z.of_nat f
          + 10 * Z.of_nat g + Z.of_nat h) by lia.
  rewrite str_of_eight_digits by assumption.
  unfold yyyymmdd. rewrite list_ascii_of_string_of_list_ascii.
  cbn [forallb].
  rewrite (proj1 (@digit_char_value a (proj2 Ha))),
    (proj1 (@digit_char_value b Hb)), (proj1 (@digit_char_value c Hc)),
    (proj1 (@digit_char_value d0 Hd0)), (proj1 (@digit_char_value e He)),
    (proj1 (@digit_char_value f Hf)), (proj1 (@digit_char_value g Hg)),
    (proj1 (@digit_char_value h Hh)).
  cbn [andb]. unfold date_of_digits.
  rewrite (proj2 (@digit_char_value a (proj2 Ha))),
    (proj2 (@digit_char_value b Hb)), (proj2 (@digit_char_value c Hc)),
    (proj2 (@digit_char_value d0 Hd0)), (proj2 (@digit_char_value e He)),
    (proj2 (@digit_char_value f Hf)), (proj2 (@digit_char_value g Hg)),
    (proj2 (@digit_char_value h Hh)).
  now rewrite <- Ey, <- Em, <- Ed.
Qed.



Lemma to_datetime_names_a_day now (s : string) (t : Timestamp) :
  to_datetime_Ymd_1 now s = Ok (Some t) ->
  t = now
  \/ (valid_date (ts_date t) = true /\ in_bounds (ts_date t) = true
      /\ ts_nanos t = 0).
Proof.
  unfold to_datetime_Ymd_1.
  destruct (String.eqb s "" || existsb (String.eqb s) nat_strings);
    [discriminate|].
  destruct (String.eqb s "now" || String.eqb s "today");
    [intros [= <-]; now left|].
  unfold strptime_Ymd.
  destruct (regex_match (list_ascii_of_string s)) as [[d [|c rest]]|];
    try discriminate.
  destruct (valid_date d) eqn:V; [|discriminate].
  destruct (in_bounds d) eqn:B; [|discriminate].
  simpl. intros [= <-]. right. auto.
Qed.

(** X9. Every occurrence date of the derived incident table that is not
    missing names a day that exists in the calendar, inside the
    datetime64[ns] range, at midnight; the only other value is the clock,
    for a date field that reads [now] or [today]. *)
Theorem occurrence_dates_exist now argsort fire seoul monthly cause region :
  preprocess_fire now argsort fire = Ok (seoul, monthly, cause, region) ->
  Forall (fun r =>
            forall t, Fire.발생일 r = Some t ->
              t = now
              \/ (valid_date (ts_date t) = true
                  /\ in_bounds (ts_date t) = true
                  /\ ts_nanos t = 0)) seoul.
Proof.
  intros E. apply seoul_rows in E as [_ F]. revert F. apply Forall_impl.
  intros r (_ & _ & Ht) t Et. rewrite Et in Ht.
  now apply to_datetime_names_a_day in Ht.
Qed.

Lemma occurrence_dates_exist_scenario :
  exists seoul,
    List.length seoul = 3%nat
    /\ Forall (fun r =>
                 forall t, Fire.발생일 r = Some t ->
                   t = Sample.now
                   \/ (valid_date (ts_date t) = true
                       /\ in_bounds (ts_date t) = true
                       /\ ts_nanos t = 0)) seoul.
Proof.
  eexists. split; cycle 1.
  - eapply (@occurrence_dates_exist Sample.now stable_argsort fire_scenario).
    vm_compute. reflexivity.
  - reflexivity.
Defined.

(** ** The weather summaries *)

Section WeatherRows.
Variable to_datetime : list Cell -> result (list (option Timestamp)).
Variable weather : list Weather.Raw.
Variable w : list Weather.Row.
Variable monthly : list ((Z * Z) * Weather.Summary).
Variable daily : list (Timestamp * Weather.Summary).
Hypothesis run : preprocess_weather to_datetime weather = Ok (w, monthly, daily).

Lemma weather_row_fields (r : Weather.Row) :
  In r w ->
  Weather.연도 r = option_map d_year (Weather.날짜 r)
  /\ Weather.월 r = option_map d_month (Weather.날짜 r)
  /\ Weather.날짜 r = option_map ts_date (Weather.일시_parsed r)
  /\ In (Weather.raw r) (filter_station weather).
Proof.
  intros Hr. unfold preprocess_weather in run.
  destruct (to_datetime (map Weather.일시 (filter_station weather))) as [ts|];
    simpl in run; [|discriminate].
  injection run as <- _ _.
  apply in_map_iff in Hr as ([a t] & <- & Hin).
  apply in_combine_l in Hin. simpl. now destruct t.
Qed.

Lemma monthly_keys (y m : Z) :
  In (y, m) (map fst monthly) <->
  exists r, In r w /\ Weather.연도_월 r = Some (y, m).
Proof.
  destruct (preprocess_weather_Ok _ _ run) as [-> _].
  unfold agg. rewrite map_map. cbn [fst]. apply groupby_keys.
Qed.

Lemma daily_keys (d : Date) :
  In (midnight d) (map fst daily) <->
  exists r, In r w /\ Weather.날짜 r = Some d.
Proof.
  destruct (preprocess_weather_Ok _ _ run) as [_ ->].
  unfold agg. rewrite !map_map. cbn [fst].
  rewrite <- (groupby_keys Weather.날짜 d w).
  rewrite <- (map_map fst midnight). split.
  - intros Hin. apply in_map_iff in Hin as (d' & E & Hin).
    apply midnight_injective in E. now subst.
  - apply in_map.
Qed.
End WeatherRows.

(** X10. In the derived weather table the year, the month and the date of
    a row are those of its parsed timestamp, missing together with it, and
    every row comes from a row of the weather table whose station is the
    selected one.  Hence the two weather summaries cover the same
    calendar: (y, m) is a key of the monthly summary exactly when the
    daily summary has a date of year y and month m. *)
Theorem weather_calendar_consistent to_datetime weather w monthly daily :
  preprocess_weather to_datetime weather = Ok (w, monthly, daily) ->
  (forall r, In r w ->
     Weather.연도 r = option_map d_year (Weather.날짜 r)
     /\ Weather.월 r = option_map d_month (Weather.날짜 r)
     /\ Weather.날짜 r = option_map ts_date (Weather.일시_parsed r)
     /\ In (Weather.raw r) weather
     /\ Weather.지점명 (Weather.raw r) = Some 서울)
  /\ (forall y m,
         In (y, m) (map fst monthly) <->
         exists d, In (midnight d) (map fst daily)
                   /\ d_year d = y /\ d_month d = m).
Proof.
  intros E. split.
  { intros r Hr.
    destruct (@weather_row_fields _ _ _ _ _ E r Hr) as (Ey & Em & Ed & Hin).
    unfold filter_station in Hin. apply filter_In in Hin as [Hin St].
    apply cell_is_true in St. auto. }
  intros y m. rewrite (@monthly_keys _ _ _ _ _ E). split.
  - intros (r & Hr & Ek).
    destruct (@weather_row_fields _ _ _ _ _ E r Hr) as (Ey & Em & _).
    unfold Weather.연도_월 in Ek. rewrite Ey, Em in Ek.
    destruct (Weather.날짜 r) as [d|] eqn:Ed; [|discriminate].
    simpl in Ek. injection Ek as <- <-. exists d.
    split; [|auto]. apply (@daily_keys _ _ _ _ _ E). eauto.
  - intros (d & Hd & <- & <-). apply (@daily_keys _ _ _ _ _ E) in Hd as (r & Hr & Ed).
    exists r. split; [exact Hr|].
    destruct (@weather_row_fields _ _ _ _ _ E r Hr) as (Ey & Em & _).
    unfold Weather.연도_월. now rewrite Ey, Em, Ed.
Qed.

Lemma weather_calendar_consistent_scenario :
  exists w monthly daily,
    (forall r, In r w ->
       Weather.연도 r = option_map d_year (Weather.날짜 r)
       /\ Weather.월 r = option_map d_month (Weather.날짜 r)
       /\ Weather.날짜 r = option_map ts_date (Weather.일시_parsed r)
       /\ In (Weather.raw r) weather_scenario
       /\ Weather.지점명 (Weather.raw r) = Some 서울)
    /\ (forall y m,
           In (y, m) (map (@fst (Z * Z) Weather.Summary) monthly) <->
           exists d, In (midnight d) (map (@fst Timestamp Weather.Summary) daily)
                     /\ d_year d = y /\ d_month d = m).
Proof.
  do 3 eexists.
  eapply (@weather_calendar_consistent Sample.to_datetime weather_scenario).
  vm_compute. reflexivity.
Defined.

(** ** The rows behind a month and behind its days *)

Section GroupedRows.
Context {K : Type} {O : Ord K} {OL : OrdLaws K} {R : Type}.
Variable key : R -> option K.
Variable P : K -> bool.

Lemma grouped_rows_cons (g : K * list R) (gs : list (K * list R)) :
  grouped_rows P (g :: gs)
  = (if P (fst g) then snd g else []) ++ grouped_rows P gs.
Proof. unfold grouped_rows. simpl. now destruct (P (fst g)). Qed.

Lemma grouped_rows_insert (k : K) (r : R) (gs : list (K * list R)) :
  Permutation (grouped_rows P (group_insert k r gs))
              ((if P k then [r] else []) ++ grouped_rows P gs).
Proof.
  induction gs as [|[k' rs] gs IH]; cbn [group_insert].
  - rewrite grouped_rows_cons. reflexivity.
  - destruct (cmp k k') eqn:E.
    + apply cmp_eq in E. subst k'. rewrite !grouped_rows_cons. cbn [fst snd].
      destruct (P k); [|reflexivity].
      rewrite <- app_assoc. simpl. symmetry. apply Permutation_middle.
    + rewrite !grouped_rows_cons. reflexivity.
    + rewrite !grouped_rows_cons. cbn [fst snd]. rewrite IH.
      destruct (P k), (P k'); simpl; try reflexivity.
      symmetry. apply Permutation_middle.
Qed.

Lemma grouped_rows_fold (rows : list R) (gs : list (K * list R)) :
  Permutation
    (grouped_rows P (fold_left (group_step key) rows gs))
    (grouped_rows P gs
     ++ filter (fun r => match key r with Some k => P k | None => false end) rows).
Proof.
  revert gs. induction rows as [|r rows IH]; intros gs; cbn [fold_left filter].
  - now rewrite app_nil_r.
  - rewrite IH. unfold group_step. destruct (key r) as [k|]; [|reflexivity].
    rewrite grouped_rows_insert. destruct (P k); [|reflexivity].
    simpl. apply Permutation_middle.
Qed.

(** Grouping loses no row and repeats none: the groups of the keys that
    satisfy [P] hold the rows whose key satisfies [P]. *)
Lemma grouped_rows_groupby (rows : list R) :
  Permutation
    (grouped_rows P (groupby key rows))
    (filter (fun r => match key r with Some k => P k | None => false end) rows).
Proof. unfold groupby. now rewrite grouped_rows_fold. Qed.
End GroupedRows.

(** X11. The monthly and the daily weather summary are reduced from the
    same rows.  The summary of a month is the reduction of the derived
    rows of that month, the summary of a day that of the rows of that day;
    the rows of a month are the derived rows whose date is a day of the
    month, in table order; and the rows of the days of a month, day after
    day, are the rows of the month in another order, none lost and none
    repeated. *)
Theorem month_rows_are_day_rows to_datetime weather w monthly daily :
  preprocess_weather to_datetime weather = Ok (w, monthly, daily) ->
  (forall y m s, In ((y, m), s) monthly ->
     s = weather_agg (rows_with Weather.연도_월 (y, m) w))
  /\ (forall d s, In (midnight d, s) daily ->
        s = weather_agg (rows_with Weather.날짜 d w))
  /\ (forall y m,
        rows_with Weather.연도_월 (y, m) w
        = filter (fun r => match Weather.날짜 r with
                           | Some d => in_month y m d
                           | None => false
                           end) w
        /\ Permutation (grouped_rows (in_month y m) (groupby Weather.날짜 w))
                       (rows_with Weather.연도_월 (y, m) w)).
Proof.
  intros E. destruct (preprocess_weather_Ok _ _ E) as [Em Ed].
  assert (Month : forall y m,
             rows_with Weather.연도_월 (y, m) w
             = filter (fun r => match Weather.날짜 r with
                                | Some d => in_month y m d
                                | None => false
                                end) w).
  { intros y m. unfold rows_with. apply filter_ext_in.
    intros r Hr.
    destruct (@weather_row_fields _ _ _ _ _ E r Hr) as (Ey & Emo & _).
    unfold has_key, Weather.연도_월. rewrite Ey, Emo.
    destruct (Weather.날짜 r) as [d|]; [|reflexivity]. simpl.
    rewrite eqb_key_pair_Z. unfold in_month. now rewrite (Z.eqb_sym m). }
  split.
  { intros y m s Hin. rewrite Em in Hin.
    apply (In_lookup _ _ (agg_sorted Weather.연도_월 weather_agg w)) in Hin.
    rewrite lookup_agg_groupby in Hin.
    destruct (rows_with Weather.연도_월 (y, m) w); congruence. }
  split.
  { intros d s Hin. rewrite Ed in Hin.
    apply in_map_iff in Hin as ([d' s'] & [= Hd <-] & Hin).
    subst d'.
    apply (In_lookup _ _ (agg_sorted Weather.날짜 weather_agg w)) in Hin.
    rewrite lookup_agg_groupby in Hin.
    destruct (rows_with Weather.날짜 d w); congruence. }
  intros y m. split; [apply Month|].
  rewrite Month. apply grouped_rows_groupby.
Qed.

Lemma month_rows_are_day_rows_scenario :
  exists w monthly daily,
    preprocess_weather Sample.to_datetime weather_scenario = Ok (w, monthly, daily)
    /\ List.length (rows_with Weather.연도_월 (2024, 1) w) = 3%nat
    /\ Permutation (grouped_rows (in_month 2024 1) (groupby Weather.날짜 w))
                   (rows_with Weather.연도_월 (2024, 1) w).
Proof.
  do 3 eexists. split; [vm_compute; reflexivity|].
  split; [vm_compute; reflexivity|].
  refine (proj2 (proj2 (proj2
            (@month_rows_are_day_rows Sample.to_datetime weather_scenario
               _ _ _ _)) 2024 1)).
  vm_compute. reflexivity.
Defined.

(** ** More on the reader *)

Section ReaderMore.
Variable Table : Type.
Variable read_bytes : string -> result bytes.
Variable codec : string -> option (Errors -> bytes -> result text).
Variable read_csv : text -> result Table.

Lemma read_csv_any_readable path encodings :
  is_ok (read_csv_any read_bytes codec read_csv path encodings) = true ->
  is_ok (read_bytes path) = true.
Proof.
  unfold read_csv_any. now destruct (read_bytes path).
Qed.
End ReaderMore.

(** X12. When latin1 is among the candidate encodings, the last-resort
    branch of the reader never produces a table: for a file that was read,
    the reader returns a table exactly when some candidate decodes and
    parses, and when every candidate fails the reader raises the
    exception of parsing the latin1 text. *)
Theorem fallback_never_rescues :
  forall Table read_bytes codec (read_csv : text -> result Table)
         path encodings raw,
    In "latin1"%string encodings ->
    read_bytes path = Ok raw ->
    (forall t,
        read_csv_any read_bytes codec read_csv path encodings = Ok t <->
        try_encodings codec read_csv raw encodings = Some t)
    /\ (try_encodings codec read_csv raw encodings = None ->
        is_ok (read_csv (latin1_text raw)) = false
        /\ read_csv_any read_bytes codec read_csv path encodings
           = read_csv (latin1_text raw)).
Proof.
  intros Table read_bytes codec read_csv path encodings raw Hin Er.
  assert (Dead : try_encodings codec read_csv raw encodings = None ->
                 is_ok (read_csv (latin1_text raw)) = false
                 /\ read_csv_any read_bytes codec read_csv path encodings
                    = read_csv (latin1_text raw)).
  { intros T. apply try_encodings_None in T. split.
    - rewrite Forall_forall in T. specialize (T _ Hin).
      unfold fails in T. now rewrite attempt_latin1 in T.
    - now apply read_csv_any_fallback. }
  split; [|exact Dead]. intros t.
  destruct (try_encodings codec read_csv raw encodings) as [t0|] eqn:T.
  - unfold read_csv_any. rewrite Er. cbn [bind]. rewrite T.
    split; congruence.
  - destruct (Dead eq_refl) as [Bad ->]. split; [|discriminate].
    intros E. rewrite E in Bad. discriminate.
Qed.

Lemma fallback_never_rescues_sample :
  (forall t,
      read_csv_any Sample.file_system Sample.codec Sample.read_csv
                   "empty.csv" default_encodings = Ok t <->
      try_encodings Sample.codec Sample.read_csv [] default_encodings = Some t)
  /\ (try_encodings Sample.codec Sample.read_csv [] default_encodings = None ->
      is_ok (Sample.read_csv (latin1_text [])) = false
      /\ read_csv_any Sample.file_system Sample.codec Sample.read_csv
                      "empty.csv" default_encodings
         = Sample.read_csv (latin1_text [])).
Proof.
  apply fallback_never_rescues.
  - vm_compute. tauto.
  - reflexivity.
Defined.


(** ** The daily incident counts *)

(** X14. The daily incident counts of [make_daily_merge] hold one row per
    occurrence date that occurs, in ascending date order, with the number
    of incidents of that date; they sum to the number of rows of the
    derived table that have an occurrence date, so an incident whose date
    is missing is in no day. *)
Theorem daily_fire_counts (seoul : list Fire.Row) :
  ascending (map fst (daily_fire seoul))
  /\ (forall t c,
         In (t, c) (daily_fire seoul) <->
         c = Z.of_nat (List.length (rows_with Fire.발생일 t seoul)) /\ 0 < c)
  /\ count_sum (daily_fire seoul)
     = Z.of_nat (List.length (filter (keyed Fire.발생일) seoul))
  /\ (forall W (daily_weather : list (Timestamp * W)) m,
         In m (make_daily_merge seoul daily_weather) ->
         In (fst m) (daily_fire seoul)).
Proof.
  unfold daily_fire. split; [|split; [|split]].
  - pose proof (count_by_groups_any Fire.발생일 seoul) as S.
    unfold ascending. induction S as [|a l S IH F]; simpl; constructor;
      [exact IH | apply Forall_map; exact F].
  - intros t c.
    rewrite (In_lookup _ _ (count_by_groups_any Fire.발생일 seoul)).
    rewrite lookup_size_groupby.
    destruct (rows_with Fire.발생일 t seoul) as [|r rs]; simpl.
    + split; [discriminate | lia].
    + split; [intros [= <-]; lia | intros [-> _]; reflexivity].
  - now rewrite count_sum_size, groupby_total.
  - intros W daily_weather [l r] Hin. unfold make_daily_merge in Hin.
    apply In_merge_inner in Hin. apply Hin.
Qed.
